(** * Spile: codec, event bus, orchestrator and protocol listener

    A shallow embedding of the source files of the Spile server:

    - [src/protocol/fields/long.ts]   the 64-bit signed [long] field codec;
    - [src/lib/utils/EventBus.ts]     the static event bus;
    - [src/lib/utils/Logger.ts]       the level filter of the logger's methods;
    - the orchestrator module         ([bootstrap] and [stop]);
    - the protocol listener module    ([listen], [close], [handleConnection]).

    JavaScript values are modelled as the code has them: a [bigint] is a [Z],
    a byte is a [Z] in [0, 256), a [number] is an IEEE-754 value
    ([spec_float]), a thrown exception is an abrupt [Completion], a promise
    is the way it settles together with the logical time it takes.  The
    definitions come first, module by module; the properties follow. *)

From Stdlib Require Import ZArith List String Bool Lia PeanoNat.
From Stdlib Require Import Floats.SpecFloat.
Import ListNotations.

Local Open Scope Z_scope.

(** ** JavaScript errors and completions *)

(** The classes of error the four files distinguish or raise. *)
Inductive ErrorClass : Type :=
| TypeError
| RangeError
| BadResource        (* Deno.errors.BadResource *)
| StreamEnded
| PlainError.

Record JsError : Type := mkJsError {
  err_class : ErrorClass;
  err_message : string
}.

Definition ErrorClass_eqb (a b : ErrorClass) : bool :=
  match a, b with
  | TypeError, TypeError | RangeError, RangeError
  | BadResource, BadResource | StreamEnded, StreamEnded
  | PlainError, PlainError => true
  | _, _ => false
  end.

(** [err instanceof C] *)
Definition instanceof (err : JsError) (c : ErrorClass) : bool :=
  ErrorClass_eqb (err_class err) c.

(** A synchronous evaluation either returns or throws. *)
Inductive Completion (A : Type) : Type :=
| Normal (a : A)
| Throw (e : JsError).
Arguments Normal {A} a.
Arguments Throw {A} e.

Definition cbind {A B} (c : Completion A) (k : A -> Completion B) : Completion B :=
  match c with
  | Normal a => k a
  | Throw e => Throw e
  end.

Declare Scope completion_scope.
Delimit Scope completion_scope with completion.
Notation "x <- c ;; k" := (cbind c (fun x => k))
  (at level 61, c at next level, right associativity) : completion_scope.

(** ** Promises

    A promise is modelled by how it settles and by the logical time that
    passes between its creation and its settlement; it may also stay
    pending for ever. *)
Inductive Settled : Type :=
| Fulfils (after : nat)
| Rejects (after : nat) (reason : JsError)
| Pending.

Definition settle_time (p : Settled) : nat :=
  match p with
  | Fulfils t => t
  | Rejects t _ => t
  | Pending => 0
  end.

(** [Promise.all]: fulfils once every member has fulfilled; rejects as soon
    as the first member (in time, then in array order) rejects; stays
    pending otherwise. *)
Fixpoint promise_all (ps : list Settled) : Settled :=
  match ps with
  | [] => Fulfils 0
  | p :: rest =>
      match p, promise_all rest with
      | Fulfils t, Fulfils t' => Fulfils (Nat.max t t')
      | Fulfils _, others => others
      | Rejects t e, Rejects t' e' =>
          if (t <=? t')%nat then Rejects t e else Rejects t' e'
      | Rejects t e, _ => Rejects t e
      | Pending, Rejects t' e' => Rejects t' e'
      | Pending, _ => Pending
      end
  end.

(** * The [long] field codec ([src/protocol/fields/long.ts]) *)
Module Long.

(** ** Typed arrays and [DataView] *)

(** An [ArrayBuffer] is its sequence of bytes. *)
Definition ArrayBuffer : Type := list Z.

(** A [Uint8Array] spanning a whole buffer, as [new Uint8Array(n)] builds. *)
Record Uint8Array : Type := mkUint8Array { u8_buffer : ArrayBuffer }.

(** A [DataView] spanning a whole buffer. *)
Record DataView : Type := mkDataView { dv_buffer : ArrayBuffer }.

(** The objects that reach the [DataView] constructor. *)
Inductive JsObject : Type :=
| ObjArrayBuffer (b : ArrayBuffer)
| ObjUint8Array (a : Uint8Array).

(** [new Uint8Array(n)]: a fresh zero-filled buffer of [n] bytes. *)
Definition Uint8Array_new (n : nat) : Uint8Array :=
  mkUint8Array (repeat 0 n).

(** [new DataView(buffer)]: the constructor first requires its argument to
    have the [[ArrayBufferData]] internal slot (ECMAScript, the DataView
    constructor, step 2), which only an [ArrayBuffer] or a
    [SharedArrayBuffer] has; a typed array has [[ViewedArrayBuffer]]
    instead, and for it the constructor throws a [TypeError]. *)
Definition DataView_new (o : JsObject) : Completion DataView :=
  match o with
  | ObjArrayBuffer b => Normal (mkDataView b)
  | ObjUint8Array _ =>
      Throw (mkJsError TypeError
               "First argument to DataView constructor must be an ArrayBuffer")
  end.

(** [ToBigInt64]: wrap-around to the signed 64-bit range. *)
Definition ToBigInt64 (v : Z) : Z :=
  let u := v mod 2 ^ 64 in
  if u >=? 2 ^ 63 then u - 2 ^ 64 else u.

(** The eight bytes of a 64-bit value, most significant first. *)
Definition int64_bytes_be (v : Z) : list Z :=
  let u := v mod 2 ^ 64 in
  map (fun i => Z.land (Z.shiftr u (8 * i)) 255) [7; 6; 5; 4; 3; 2; 1; 0].

(** The unsigned value of a big-endian byte sequence. *)
Definition be_value (bytes : list Z) : Z :=
  fold_left (fun acc b => Z.lor (Z.shiftl acc 8) b) bytes 0.

(** [view.setBigInt64(byteOffset, value)], big-endian as the third argument
    is omitted; out of bounds is a [RangeError]. *)
Definition setBigInt64 (view : DataView) (byteOffset : nat) (value : Z)
  : Completion DataView :=
  if (byteOffset + 8 <=? List.length (dv_buffer view))%nat then
    Normal (mkDataView (firstn byteOffset (dv_buffer view)
                        ++ int64_bytes_be value
                        ++ skipn (byteOffset + 8) (dv_buffer view)))
  else Throw (mkJsError RangeError "Offset is outside the bounds of the DataView").

(** [view.getBigInt64(byteOffset)], big-endian. *)
Definition getBigInt64 (view : DataView) (byteOffset : nat) : Completion Z :=
  if (byteOffset + 8 <=? List.length (dv_buffer view))%nat then
    Normal (ToBigInt64 (be_value (firstn 8 (skipn byteOffset (dv_buffer view)))))
  else Throw (mkJsError RangeError "Offset is outside the bounds of the DataView").

(** ** The byte consumer *)

(** Modelled from the spec: the byte consumer ([consumer.readWithView]) is
    not among the source files.  Per the spec it is a cursor over the bytes
    buffered from one socket, holding the bytes not yet discarded and a read
    position, and knowing whether the socket has ended. *)
Record Consumer : Type := mkConsumer {
  buffered : list Z;
  position : nat;
  ended : bool
}.

(** What an awaited read on the consumer comes to. *)
Inductive Read (A : Type) : Type :=
| Ready (a : A) (rest : Consumer)
| Suspended
| Failed (e : JsError).
Arguments Ready {A} a rest.
Arguments Suspended {A}.
Arguments Failed {A} e.

(** Modelled from the spec: [readWithView(n)] returns an offset and a
    zero-copy view once [n] unread bytes are buffered, advancing the read
    position by [n]; it suspends until then, and fails with a stream-ended
    error when the socket closes first. *)
Definition readWithView (n : nat) (c : Consumer) : Read (nat * DataView) :=
  if (position c + n <=? List.length (buffered c))%nat then
    Ready (position c, mkDataView (buffered c))
          (mkConsumer (buffered c) (position c + n) (ended c))
  else if ended c then Failed (mkJsError StreamEnded "stream ended")
  else Suspended.

(** A consumer pre-loaded with exactly the given bytes. *)
Definition preloaded (bytes : list Z) : Consumer := mkConsumer bytes 0 true.

(** ** The codec *)

(** Modelled from the spec: [FieldCodecBuilder] ([../field_codec.ts]) is not
    among the source files; the compiled codec bundles the name and the
    three closures handed to the builder. *)
Record FieldCodec (T : Type) : Type := mkFieldCodec {
  name : string;
  validate : T -> bool;
  encode : T -> Completion Uint8Array;
  decode : Consumer -> Read T
}.
Arguments name {T} _.
Arguments validate {T} _ _.
Arguments encode {T} _ _.
Arguments decode {T} _ _.

Definition MAX_LONG : Z := 9223372036854775807.
Definition MIN_LONG : Z := -9223372036854775808.

Definition long_validate (value : Z) : bool :=
  (value >=? MIN_LONG) && (value <=? MAX_LONG).

(** The [encode] closure.  [bytes] and [view] would share one buffer, so the
    returned [bytes] carries what [view] wrote. *)
Definition long_encode (value : Z) : Completion Uint8Array :=
  (let bytes := Uint8Array_new 8 in
   view <- DataView_new (ObjUint8Array bytes) ;;
   view' <- setBigInt64 view 0 value ;;
   Normal (mkUint8Array (dv_buffer view')))%completion.

(** The [decode] closure. *)
Definition long_decode (consumer : Consumer) : Read Z :=
  match readWithView 8 consumer with
  | Ready (offset, view) rest =>
      match getBigInt64 view offset with
      | Normal v => Ready v rest
      | Throw e => Failed e
      end
  | Suspended => Suspended
  | Failed e => Failed e
  end.

Definition long : FieldCodec Z :=
  mkFieldCodec Z "long" long_validate long_encode long_decode.

End Long.

(** * The event bus ([src/lib/utils/EventBus.ts]) *)
Module EventBus.

(** [type EventId = string | number | symbol].  A number is an IEEE-754
    value; a symbol is known by its identity. *)
Inductive EventId : Type :=
| IdString (s : string)
| IdNumber (x : spec_float)
| IdSymbol (key : positive).

(** [a === b] on event ids: numbers compare as IEEE-754 values, so [NaN] is
    not equal to itself and the two zeros are equal. *)
Definition strict_equals (a b : EventId) : bool :=
  match a, b with
  | IdString s, IdString t => String.eqb s t
  | IdNumber x, IdNumber y => SFeqb x y
  | IdSymbol j, IdSymbol k => Pos.eqb j k
  | _, _ => false
  end.

(** SameValueZero, the comparison a [Map] uses on its keys: as [===], but
    [NaN] equals [NaN]. *)
Definition same_value_zero (a b : EventId) : bool :=
  match a, b with
  | IdNumber S754_nan, IdNumber S754_nan => true
  | _, _ => strict_equals a b
  end.

(** [Map.prototype.set] stores the key [-0] as [+0]. *)
Definition canonical_key (k : EventId) : EventId :=
  match k with
  | IdNumber (S754_zero true) => IdNumber (S754_zero false)
  | _ => k
  end.

(** A listener function, known by its reference (what [!==] compares). *)
Definition EventListener : Type := nat.

(** [Map<EventId, EventListener[]>]: the entries in insertion order. *)
Definition ListenerMap : Type := list (EventId * list EventListener).

(** [new Map()] *)
Definition empty : ListenerMap := [].

(** [listeners.get(id)] *)
Fixpoint map_get (m : ListenerMap) (id : EventId) : option (list EventListener) :=
  match m with
  | [] => None
  | (k, v) :: rest => if same_value_zero k id then Some v else map_get rest id
  end.

(** [listeners.set(id, v)]: an existing key keeps its place and is given the
    new value; a new key is appended. *)
Fixpoint map_set (m : ListenerMap) (id : EventId) (v : list EventListener)
  : ListenerMap :=
  match m with
  | [] => [(canonical_key id, v)]
  | (k, w) :: rest =>
      if same_value_zero k id then (k, v) :: rest
      else (k, w) :: map_set rest id v
  end.

(** [listeners.delete(id)] *)
Fixpoint map_delete (m : ListenerMap) (id : EventId) : ListenerMap :=
  match m with
  | [] => []
  | (k, w) :: rest =>
      if same_value_zero k id then rest else (k, w) :: map_delete rest id
  end.

(** The keys of a [Map] are pairwise different under SameValueZero. *)
Fixpoint map_ok (m : ListenerMap) : bool :=
  match m with
  | [] => true
  | (k, _) :: rest =>
      negb (existsb (fun entry => same_value_zero (fst entry) k) rest)
      && map_ok rest
  end.

(** The arguments an event carries ([data: string], [err: Error], ...). *)
Inductive JsValue : Type :=
| VUndefined
| VString (s : string)
| VError (e : JsError).

(** What calling a listener does: [void | Promise<void>], or it throws. *)
Inductive CallResult : Type :=
| ReturnsVoid
| ReturnsPromise (p : Settled)
| Throws (e : JsError).

(** What one [send] did: the listener calls it made, in order, and how the
    promise it returned settles. *)
Record Sent : Type := mkSent {
  calls : list (EventListener * list JsValue);
  settles : Settled
}.

(** The condition [if (isPromise)] tests the imported function itself, not
    its result on [res]; a function is truthy. *)
Definition isPromise_truthy : bool := true.

Section Dispatch.

(** The behaviour of the registered functions. *)
Variable call : EventListener -> list JsValue -> CallResult.

(** The promise of [(async () => { const res = listener(...args);
    if (isPromise) await res; })()]. *)
Definition dispatch (listener : EventListener) (args : list JsValue) : Settled :=
  match call listener args with
  | Throws e => Rejects 0 e
  | ReturnsVoid => Fulfils 0
  | ReturnsPromise p => if isPromise_truthy then p else Fulfils 0
  end.

(** [send(id, ...args)].  The entries are copied, filtered and flattened
    before the first listener is called, so the listeners called are those
    present when [send] is entered. *)
Definition send (listeners : ListenerMap) (id : EventId) (args : list JsValue)
  : Sent :=
  let found :=
    flat_map (fun entry => snd entry)
      (filter (fun entry => strict_equals (fst entry) id) listeners) in
  let foundListeners := map (fun listener => dispatch listener args) found in
  mkSent (map (fun listener => (listener, args)) found)
         (promise_all foundListeners).

End Dispatch.

(** [on(id, listener)] *)
Definition on (listeners : ListenerMap) (id : EventId) (listener : EventListener)
  : ListenerMap :=
  let ls := match map_get listeners id with Some ls => ls | None => [] end in
  let ls := ls ++ [listener] in
  map_set listeners id ls.

(** [off(id, listener?)].  The array [filter] builds is dropped; the array
    put back under [id] is the one that was read. *)
Definition off (listeners : ListenerMap) (id : EventId)
  (listener : option EventListener) : ListenerMap :=
  match map_get listeners id with
  | None => listeners
  | Some ls =>
      match listener with
      | None => map_delete listeners id
      | Some l =>
          let _ := filter (fun lsFn => negb (Nat.eqb lsFn l)) ls in
          map_set listeners id ls
      end
  end.

(** The listeners registered under an id. *)
Definition registered (listeners : ListenerMap) (id : EventId)
  : list EventListener :=
  match map_get listeners id with Some ls => ls | None => [] end.

End EventBus.

(** * Stateful code: state passing with exceptions and process exit *)

(** How a statement ends: normally, by a thrown error, because the process
    was terminated ([process.exit] does not return), or never, suspended in
    an [await] on a promise that stays pending. *)
Inductive Result (A : Type) : Type :=
| Ret (a : A)
| Raise (e : JsError)
| Exit (code : Z)
| Hangs.
Arguments Ret {A} a.
Arguments Raise {A} e.
Arguments Exit {A} code.
Arguments Hangs {A}.

Definition M (S A : Type) : Type := S -> Result A * S.

Definition ret {S A} (a : A) : M S A := fun s => (Ret a, s).

Definition raise {S A} (e : JsError) : M S A := fun s => (Raise e, s).

Definition bind {S A B} (m : M S A) (k : A -> M S B) : M S B :=
  fun s =>
    match m s with
    | (Ret a, s') => k a s'
    | (Raise e, s') => (Raise e, s')
    | (Exit c, s') => (Exit c, s')
    | (Hangs, s') => (Hangs, s')
    end.

(** [try { body } catch (err) { handler }]: only a thrown error is caught. *)
Definition try_catch {S A} (body : M S A) (handler : JsError -> M S A) : M S A :=
  fun s =>
    match body s with
    | (Raise e, s') => handler e s'
    | r => r
    end.

(** [try { body } finally { cleanup }]: the cleanup runs when the body
    returns or throws. *)
Definition try_finally {S A} (body : M S A) (cleanup : M S unit) : M S A :=
  fun s =>
    match body s with
    | (Exit c, s') => (Exit c, s')
    | (Hangs, s') => (Hangs, s')
    | (r, s') =>
        match cleanup s' with
        | (Ret _, s'') => (r, s'')
        | (Raise e, s'') => (Raise e, s'')
        | (Exit c, s'') => (Exit c, s'')
        | (Hangs, s'') => (Hangs, s'')
        end
    end.

Definition gets {S A} (f : S -> A) : M S A := fun s => (Ret (f s), s).

Definition modify {S} (f : S -> S) : M S unit := fun s => (Ret tt, f s).

Declare Scope stmt_scope.
Delimit Scope stmt_scope with stmt.
Notation "x <- m ;; k" := (bind m (fun x => k))
  (at level 61, m at next level, right associativity) : stmt_scope.
Notation "m ;; k" := (bind m (fun _ => k))
  (at level 61, right associativity) : stmt_scope.

(** * The orchestrator ([bootstrap] and [stop]) *)
Module Orchestrator.

(** [const [rcon, proto, query] = ...] *)
Inductive Server : Type := rcon | proto | query.

(** [enum LoggerLevels { DEBUG, INFO, WARN, ERROR }] *)
Inductive LoggerLevels : Type := DEBUG | INFO | WARN | ERROR.

Definition level_index (l : LoggerLevels) : nat :=
  match l with DEBUG => 0 | INFO => 1 | WARN => 2 | ERROR => 3 end.

(** What the module does to the outside. *)
Inductive Event : Type :=
| CallListen (s : Server)
| CallClose (s : Server)
| StdoutWrite (lvl : LoggerLevels) (msg : string) (err : option JsError)
| StdoutFlushSync
| StdoutDestroy
| ConsoleError (err : JsError)
| ProcessExit (code : Z).

(** The module's variable [isBooting], the logical clock, and the history
    of outside calls. *)
Record World : Type := mkWorld {
  isBooting : bool;
  now : nat;
  trace : list Event
}.

(** The collaborators.  The listener classes and the stream under the logger
    are not part of the module: how their calls come out is a parameter. *)
Record Env : Type := mkEnv {
  isDebug : bool;
  (* Modelled from the spec: [listen()] and [close()] return a promise *)
  listen_settles : Server -> Settled;
  close_settles : Server -> Settled;
  (* [Logger.stdout.write], by message: [None] when it returns *)
  write_throws : string -> option JsError;
  (* [Logger.stdout.flushSync] *)
  flushSync_throws : option JsError
}.

Definition Stmt (A : Type) : Type := M World A.

(** The world with further outside calls recorded. *)
Definition recorded (w : World) (es : list Event) : World :=
  mkWorld (isBooting w) (now w) (trace w ++ es).

(** The world some time later. *)
Definition later (w : World) (t : nat) : World :=
  mkWorld (isBooting w) (now w + t) (trace w).

Definition emit (e : Event) : Stmt unit :=
  modify (fun w => recorded w [e]).

Definition set_isBooting (b : bool) : Stmt unit :=
  modify (fun w => mkWorld b (now w) (trace w)).

(** [await p]: time passes until [p] settles; a rejection is thrown; on a
    promise that stays pending the statement never resumes. *)
Definition await (p : Settled) : Stmt unit :=
  (modify (fun w => later w (settle_time p)) ;;
   match p with
   | Fulfils _ => ret tt
   | Rejects _ e => raise e
   | Pending => fun w => (Hangs, w)
   end)%stmt.

(** [process.exit(code)]: the exit code defaults to 0. *)
Definition process_exit (code : option Z) : Stmt unit :=
  let c := match code with Some c => c | None => 0 end in
  (emit (ProcessExit c) ;; fun w => (Exit c, w))%stmt.

Section WithEnv.

Variable env : Env.

(** [new Logger("master", isDebug ? LoggerLevels.DEBUG : LoggerLevels.WARN)] *)
Definition levelMin : LoggerLevels := if isDebug env then DEBUG else WARN.

(** [levelIndex >= levelMin] *)
Definition enabled (lvl : LoggerLevels) : bool :=
  (level_index levelMin <=? level_index lvl)%nat.

(** A method of the logger ([Logger.ts], the closure built per level):
    [if (levelIndex >= levelMin) { ...; Logger.stdout.write(logStr); }] *)
Definition log (lvl : LoggerLevels) (msg : string) (err : option JsError)
  : Stmt unit :=
  if enabled lvl then
    (emit (StdoutWrite lvl msg err) ;;
     match write_throws env msg with
     | None => ret tt
     | Some e => raise e
     end)%stmt
  else ret tt.

(** [destroySyncUnsafe()]:
    [try { Logger.stdout.flushSync(); } finally { Logger.stdout.destroy(); }] *)
Definition destroySyncUnsafe : Stmt unit :=
  try_finally
    (emit StdoutFlushSync ;;
     match flushSync_throws env with
     | None => ret tt
     | Some e => raise e
     end)%stmt
    (emit StdoutDestroy).

(** Building the array [[a.m(), b.m(), c.m()]]: each call is made in turn
    and hands back its promise at once. *)
Fixpoint call_each (ev : Server -> Event) (settles : Server -> Settled)
  (servers : list Server) : Stmt (list Settled) :=
  match servers with
  | [] => ret []
  | s :: rest =>
      (emit (ev s) ;;
       ps <- call_each ev settles rest ;;
       ret (settles s :: ps))%stmt
  end.

(** [console.error(...)], the raw fallback output. *)
Definition console_error (err : JsError) : Stmt unit := emit (ConsoleError err).

(** The [try] block of [stop]. *)
Definition stop_try : Stmt unit :=
  (log WARN "Stopping server." None ;;
   ps <- call_each CallClose (close_settles env) [rcon; proto; query] ;;
   await (promise_all ps) ;;
   log INFO "Thanks for playing!" None ;;
   destroySyncUnsafe ;;
   process_exit None)%stmt.

(** The [catch (err)] block of [stop]. *)
Definition stop_catch (err : JsError) : Stmt unit :=
  (console_error err ;;
   process_exit (Some 1))%stmt.

Definition stop : Stmt unit := try_catch stop_try stop_catch.

(** The [catch (err)] block of [bootstrap]. *)
Definition bootstrap_catch (err : JsError) : Stmt unit :=
  (booting <- gets isBooting ;;
   if booting : bool then
     log ERROR "An error occurred while booting!" (Some err) ;;
     log WARN "The server will now stop." None ;;
     stop
   else
     log ERROR
       "An error occurred in Spile! Please report this to the developers."
       (Some err))%stmt.

(** The [try] block of [bootstrap]. *)
Definition bootstrap_try : Stmt unit :=
  (ps <- call_each CallListen (listen_settles env) [rcon; proto; query] ;;
   await (promise_all ps) ;;
   set_isBooting false ;;
   log INFO "We're ready to roll boss!" None)%stmt.

Definition bootstrap : Stmt unit := try_catch bootstrap_try bootstrap_catch.

(** The notice [stop] writes when the shutdown went well; the master logger
    lets it through in debug mode only. *)
Definition thanks_written : list Event :=
  if isDebug env then [StdoutWrite INFO "Thanks for playing!" None] else [].

(** No error occurs in [stop]: the logger's writes return, every [close()]
    fulfils, and the flush returns. *)
Definition stop_is_clean : Prop :=
  write_throws env "Stopping server." = None
  /\ (forall s, exists d, close_settles env s = Fulfils d)
  /\ (isDebug env = true -> write_throws env "Thanks for playing!" = None)
  /\ flushSync_throws env = None.

(** The logger accepts the three notices written between a failed boot and
    the close calls. *)
Definition boot_failure_logged : Prop :=
  write_throws env "An error occurred while booting!" = None
  /\ write_throws env "The server will now stop." = None
  /\ write_throws env "Stopping server." = None.

End WithEnv.

(** The world when the module has just been loaded: [let isBooting = true]. *)
Definition initial : World := mkWorld true 0 [].

End Orchestrator.

(** * The protocol listener ([listen], [close], [handleConnection]) *)
Module ProtoListener.

(** A [Deno.Conn], known by its resource id. *)
Definition Conn : Type := nat.

(** [interface ServeOptions] *)
Record ServeOptions : Type := mkServeOptions {
  hostname : string;
  port : Z
}.

(** The header [parseHeaders] resolves to. *)
Record Header : Type := mkHeader {
  packetLength : Z;
  dataLength : Z;
  id : Z
}.

Inductive Event : Type :=
| ListenTcp (opts : ServeOptions)
| ListenerClose
| ConnClose (conn : Conn)
| LogInfo (host : string) (port_number : Z).  (* [Started listening on ...] *)

(** The module's variables [connections], [listener] and [open], and the
    history of outside calls. *)
Record State : Type := mkState {
  connections : list Conn;       (* a [Set<Conn>], in insertion order *)
  listener : option nat;         (* the [Deno.Listener], when assigned *)
  open : bool;
  trace : list Event
}.

(** How the calls into Deno come out: [None] when the call returns. *)
Record Env : Type := mkEnv {
  listenTcp : ServeOptions -> Completion nat;
  listener_close_throws : option JsError;
  conn_close_throws : Conn -> option JsError
}.

Definition Stmt (A : Type) : Type := M State A.

(** The state with further outside calls recorded. *)
Definition recorded (st : State) (es : list Event) : State :=
  mkState (connections st) (listener st) (open st) (trace st ++ es).

Definition emit (e : Event) : Stmt unit :=
  modify (fun st => recorded st [e]).

Definition set_open (b : bool) : Stmt unit :=
  modify (fun st => mkState (connections st) (listener st) b (trace st)).

Definition set_listener (l : nat) : Stmt unit :=
  modify (fun st => mkState (connections st) (Some l) (open st) (trace st)).

(** ** The session loop *)

(** What the loop finds when the awaited [parseHeaders] settles: the flags
    as they are by then (other code runs while the loop is suspended), and
    the header, no header, or a rejection. *)
Inductive Resumption : Type :=
| Resolved (open' closed' : bool) (headerData : option Header)
| Rejected (reason : JsError).

(** What the loop does, step by step. *)
Inductive Step : Type :=
| Tested (open_flag closed_flag : bool)   (* [open && !client.closed] read *)
| ParseBegun                              (* [parseHeaders(...)] called *)
| ParseSettled (headerData : option Header)
| Continued                               (* [if (!headerData) continue] taken *)
| Destructured (h : Header).

(** Where the loop is when the schedule runs out. *)
Inductive Status : Type :=
| Returned                  (* the [while] condition was false *)
| Awaiting                  (* suspended in [await parseHeaders(...)] *)
| Failed (e : JsError).     (* the awaited promise rejected *)

(** [while (open && !client.closed) { ... }] against a schedule of
    resumptions. *)
Fixpoint session_loop (schedule : list Resumption) (open_flag closed_flag : bool)
  : list Step * Status :=
  if open_flag && negb closed_flag then
    match schedule with
    | [] => ([Tested open_flag closed_flag; ParseBegun], Awaiting)
    | Rejected e :: _ => ([Tested open_flag closed_flag; ParseBegun], Failed e)
    | Resolved open' closed' headerData :: later =>
        let (steps, status) := session_loop later open' closed' in
        let body :=
          match headerData with
          | None => [Continued]
          | Some h => [Destructured h]
          end in
        (Tested open_flag closed_flag :: ParseBegun
           :: ParseSettled headerData :: body ++ steps, status)
    end
  else ([Tested open_flag closed_flag], Returned).

(** [handleConnection(conn)].  Modelled from the spec: [Client] is not among
    the source files; a new client's closed flag is [closed0]. *)
Definition handleConnection (conn : Conn) (closed0 : bool)
  (schedule : list Resumption) : Stmt (list Step * Status) :=
  (open_flag <- gets open ;;
   ret (session_loop schedule open_flag closed0))%stmt.

(** [acceptConnections()]: [for await (const conn of listener)
    handleConnection(conn);], over the connections that arrive. *)
Fixpoint acceptConnections (incoming : list (Conn * list Resumption))
  : Stmt (list (list Step * Status)) :=
  match incoming with
  | [] => ret []
  | (conn, schedule) :: later =>
      (run <- handleConnection conn false schedule ;;
       runs <- acceptConnections later ;;
       ret (run :: runs))%stmt
  end.

Section WithEnv.

Variable env : Env.

(** [listen(opts)].  The accept loop it starts suspends at once, waiting
    for the first connection; the connections are handed to
    [acceptConnections] as they arrive, after [listen] has returned. *)
Definition listen (opts : ServeOptions) : Stmt unit :=
  match listenTcp env opts with
  | Throw e => raise e
  | Normal l =>
      (emit (ListenTcp opts) ;;
       set_listener l ;;
       set_open true ;;
       emit (LogInfo (hostname opts) (port opts)))%stmt
  end.

(** [conn.close()] *)
Definition conn_close (conn : Conn) : Stmt unit :=
  (emit (ConnClose conn) ;;
   match conn_close_throws env conn with
   | None => ret tt
   | Some e => raise e
   end)%stmt.

(** [listener?.close()] *)
Definition listener_close : Stmt unit :=
  (l <- gets listener ;;
   match l with
   | None => ret tt
   | Some _ =>
       emit ListenerClose ;;
       match listener_close_throws env with
       | None => ret tt
       | Some e => raise e
       end
   end)%stmt.

(** [for (const conn of connections) { try { conn.close(); } catch (err)
    { if (!(err instanceof Deno.errors.BadResource)) throw err; } }] *)
Fixpoint close_sweep (conns : list Conn) : Stmt unit :=
  match conns with
  | [] => ret tt
  | conn :: rest =>
      (try_catch (conn_close conn)
         (fun err =>
            if negb (instanceof err BadResource) then raise err else ret tt) ;;
       close_sweep rest)%stmt
  end.

(** The statements of [close] before the loop. *)
Definition close_prelude : Stmt unit :=
  (set_open false ;;
   listener_close)%stmt.

Definition close : Stmt unit :=
  (close_prelude ;;
   conns <- gets connections ;;
   close_sweep conns)%stmt.

(** [conn.close()] returns, or throws a [BadResource] error. *)
Definition closes_quietly (conn : Conn) : bool :=
  match conn_close_throws env conn with
  | None => true
  | Some e => instanceof e BadResource
  end.

End WithEnv.

(** The module when it has just been loaded. *)
Definition initial : State := mkState [] None false [].

End ProtoListener.

(** * Concrete scenarios *)

Module BusScenario.
Import EventBus.

(** The ids ["line"] and ["ready"]. *)
Definition line : EventId := IdString "line".
Definition ready : EventId := IdString "ready".

(** Listener 3 returns a promise fulfilled after 5 ticks; the others return
    at once. *)
Definition slow_3 : EventListener -> list JsValue -> CallResult :=
  fun listener _ =>
    if Nat.eqb listener 3 then ReturnsPromise (Fulfils 5) else ReturnsVoid.

(** [on("line", f3); on("ready", f9); on("line", f4)] on a fresh bus. *)
Definition busy_listeners : ListenerMap :=
  on (on (on empty line 3%nat) ready 9%nat) line 4%nat.

End BusScenario.

Module BootScenario.
Import Orchestrator.

Definition bind_error : JsError := mkJsError PlainError "EADDRINUSE".

Definition io_error : JsError := mkJsError PlainError "EPIPE".

(** All three listeners start and stop; the logger works. *)
Definition healthy : Env :=
  mkEnv false (fun _ => Fulfils 2) (fun _ => Fulfils 1) (fun _ => None) None.

(** The game-protocol listener fails to bind; the other two start. *)
Definition proto_fails : Env :=
  mkEnv false
    (fun s => match s with proto => Rejects 1 bind_error | _ => Fulfils 2 end)
    (fun _ => Fulfils 1) (fun _ => None) None.

(** The query listener fails to close. *)
Definition query_close_fails : Env :=
  mkEnv false (fun _ => Fulfils 2)
    (fun s => match s with query => Rejects 3 io_error | _ => Fulfils 1 end)
    (fun _ => None) None.

(** In debug mode, the write of the ready notice fails. *)
Definition ready_write_fails : Env :=
  mkEnv true (fun _ => Fulfils 2) (fun _ => Fulfils 1)
    (fun msg =>
       if String.eqb msg "We're ready to roll boss!" then Some io_error else None)
    None.

(** The world once [bootstrap_try] has cleared [isBooting] there. *)
Definition running : World :=
  mkWorld false 2
    [CallListen rcon; CallListen proto; CallListen query;
     StdoutWrite INFO "We're ready to roll boss!" None].

End BootScenario.

Module ListenerScenario.
Import ProtoListener.

Definition opts : ServeOptions := mkServeOptions "0.0.0.0" 25565.

Definition bad_resource : JsError := mkJsError BadResource "Bad resource ID".

Definition reset_error : JsError := mkJsError PlainError "Connection reset".

(** Deno hands out listener 1; every close returns. *)
Definition calm : Env := mkEnv (fun _ => Normal 1%nat) None (fun _ => None).

(** Connection 4 was already closed by its peer; closing connection 5 fails
    with another error. *)
Definition rough : Env :=
  mkEnv (fun _ => Normal 1%nat) None
    (fun conn =>
       if Nat.eqb conn 4 then Some bad_resource
       else if Nat.eqb conn 5 then Some reset_error
       else None).

(** A listener that would own the sessions 3 and 4. *)
Definition owning_3_4 : State := mkState [3; 4]%nat (Some 1%nat) true [].

(** A listener that would own the sessions 3, 4, 5 and 6. *)
Definition owning_3_to_6 : State := mkState [3; 4; 5; 6]%nat (Some 1%nat) true [].

(** A peer that sends one header, then nothing while the listener is
    closed. *)
Definition one_header_then_closed : list Resumption :=
  [Resolved true false (Some (mkHeader 3 2 0)); Resolved false false None].

End ListenerScenario.

(** * Histories of calls *)

Module BusHistory.
Import EventBus.

(** A call that changes the bus. *)
Inductive BusCall : Type :=
| On (id : EventId) (listener : EventListener)
| Off (id : EventId) (listener : option EventListener).

Definition bus_call (m : ListenerMap) (c : BusCall) : ListenerMap :=
  match c with
  | On id listener => on m id listener
  | Off id listener => off m id listener
  end.

(** The map after a history of calls on a fresh bus. *)
Definition bus_after (history : list BusCall) : ListenerMap :=
  fold_left bus_call history empty.

(** No id is kept with an empty array of listeners. *)
Definition arrays_nonempty (m : ListenerMap) : bool :=
  forallb (fun entry => match snd entry with [] => false | _ => true end) m.

(** The time by which every one of the listeners has finished. *)
Definition finish_time (call : EventListener -> list JsValue -> CallResult)
  (ls : list EventListener) (args : list JsValue) : nat :=
  fold_right Nat.max 0%nat (map (fun l => settle_time (dispatch call l args)) ls).

End BusHistory.

Module ListenerHistory.
Import ProtoListener.

(** What happens to the module: [listen] is called, connections arrive at
    the accept loop, [close] is called. *)
Inductive ModuleCall : Type :=
| Listen (opts : ServeOptions)
| Arrive (incoming : list (Conn * list Resumption))
| Close.

(** The state after one call, whether it returned or threw. *)
Definition module_call (env : Env) (st : State) (c : ModuleCall) : State :=
  match c with
  | Listen opts => snd (listen env opts st)
  | Arrive incoming => snd (acceptConnections incoming st)
  | Close => snd (close env st)
  end.

(** The state after a history of calls on the freshly loaded module. *)
Definition module_after (env : Env) (history : list ModuleCall) : State :=
  fold_left (module_call env) history initial.

(** A [conn.close()] in the history of outside calls. *)
Definition is_ConnClose (e : Event) : bool :=
  match e with ConnClose _ => true | _ => false end.

(** The parses a run of the session loop began. *)
Definition parses_begun (steps : list Step) : nat :=
  List.length (filter (fun s => match s with ParseBegun => true | _ => false end)
                 steps).

(** A resumption that lets the loop go on: the parse resolved and the flags
    still allow another turn. *)
Definition goes_on (r : Resumption) : bool :=
  match r with
  | Resolved open' closed' _ => open' && negb closed'
  | Rejected _ => false
  end.

(** What a state keeps when only the history of outside calls grows. *)
Definition same_variables (st st' : State) : Prop :=
  connections st' = connections st
  /\ listener st' = listener st
  /\ open st' = open st.

End ListenerHistory.

(** * The constructor of the logger ([src/lib/utils/Logger.ts]) *)
Module LoggerNames.
Import Orchestrator.

(** A value of type [string | LoggerLevels | undefined], the type of the
    constructor's [name]. *)
Inductive NameValue : Type :=
| Undefined
| Str (s : string)
| Level (l : LoggerLevels).

(** [typeof v === "undefined"] and [typeof v === "string"] *)
Definition is_undefined (v : NameValue) : bool :=
  match v with Undefined => true | _ => false end.

Definition is_string (v : NameValue) : bool :=
  match v with Str _ => true | _ => false end.

(** [if (v)]: the empty string, [0] and [undefined] are falsy. *)
Definition truthy (v : NameValue) : bool :=
  match v with
  | Undefined => false
  | Str s => negb (String.eqb s "")
  | Level l => negb (Nat.eqb (level_index l) 0)
  end.

(** The keys of the object a numeric [enum] compiles to: the names and the
    numbers. *)
Definition own_key (s : string) : bool :=
  existsb (String.eqb s)
    ["DEBUG"; "INFO"; "WARN"; "ERROR"; "0"; "1"; "2"; "3"]%string.

(** A number used as a property key, and in a string concatenation. *)
Definition level_to_string (l : LoggerLevels) : string :=
  match l with DEBUG => "0" | INFO => "1" | WARN => "2" | ERROR => "3" end.

(** What [Array.prototype.includes] compares with (SameValueZero). *)
Definition NameValue_eqb (a b : NameValue) : bool :=
  match a, b with
  | Undefined, Undefined => true
  | Str s, Str t => String.eqb s t
  | Level l, Level k => Nat.eqb (level_index l) (level_index k)
  | _, _ => false
  end.

(** [Logger.registeredNames.includes(name)] *)
Definition includes (names : list NameValue) (name : NameValue) : bool :=
  existsb (fun n => NameValue_eqb n name) names.

Section WithChalk.

(** [chalk.green], [chalk.gray] and [String.prototype.toLowerCase]. *)
Variable green gray toLowerCase : string -> string.

(** The keys [LoggerLevels] inherits from [Object.prototype]. *)
Variable inherited_key : string -> bool.

(** [name in LoggerLevels] *)
Definition in_LoggerLevels (name : NameValue) : bool :=
  match name with
  | Undefined => own_key "undefined" || inherited_key "undefined"
  | Str s => own_key s || inherited_key s
  | Level l => own_key (level_to_string l) || inherited_key (level_to_string l)
  end.

(** The name and the minimum level after the lines
    [if (name in LoggerLevels) levelMin = name;
     else if (nameType === "string")
       name = chalk.green((name as string).toLowerCase());] *)
Definition sorted_out (name levelMin : NameValue) : NameValue * NameValue :=
  if in_LoggerLevels name then (name, name)
  else
    match name with
    | Str s => (Str (green (toLowerCase s)), levelMin)
    | _ => (name, levelMin)
    end.

(** The name once those lines have run; it does not depend on the level. *)
Definition processed_name (name : NameValue) : NameValue :=
  fst (sorted_out name Undefined).

(** [name += ` ${chalk.gray(">")} ${chalk.green(childName.toLowerCase())}`] *)
Definition with_child (name : NameValue) (childName : string) : NameValue :=
  let suffix :=
    (" " ++ gray ">" ++ " " ++ green (toLowerCase childName))%string in
  match name with
  | Undefined => Str ("undefined" ++ suffix)
  | Str s => Str (s ++ suffix)
  | Level l => Str (level_to_string l ++ suffix)
  end.

(** The method [warn] of the object under construction, as it is when the
    registered names are looked at: the methods are only assigned by the
    loop that ends the constructor, and the class declares none. *)
Definition warn_before_the_loop : option (string -> M (list NameValue) unit) :=
  None.

(** [this.warn(msg)]: calling what is not a function throws a
    [TypeError]. *)
Definition this_warn (msg : string) : M (list NameValue) unit :=
  match warn_before_the_loop with
  | Some method => method msg
  | None => raise (mkJsError TypeError "this.warn is not a function")
  end.

(** The constructor up to [Logger.registeredNames.push(name)], on the static
    [registeredNames]; it yields the name and the minimum level the object
    is then given.  [levelMin] defaults to [LoggerLevels.INFO] when it is
    left out or [undefined]. *)
Definition constructor_head (name : NameValue) (levelMin : option NameValue)
  (childName : option string) : M (list NameValue) (NameValue * NameValue) :=
  let levelMin :=
    match levelMin with
    | None | Some Undefined => Level INFO
    | Some l => l
    end in
  let levelMin :=
    if is_undefined name && is_undefined levelMin then Level INFO
    else levelMin in
  let (name, levelMin) := sorted_out name levelMin in
  if truthy name then
    (registered <- gets (fun names => names) ;;
     name <- (if includes registered name then
                this_warn "Can not register a logger with ambiguous name" ;;
                ret Undefined
              else ret name) ;;
     let name :=
       match childName with
       | Some child =>
           if negb (String.eqb child "") then with_child name child else name
       | None => name
       end in
     modify (fun names => names ++ [name]) ;;
     ret (name, levelMin))%stmt
  else ret (name, levelMin).

(** [child(name)]: [return new Logger(this.name, this.levelMin, this.fd,
    name);], for a logger whose [name] and [levelMin] are the ones given. *)
Definition child (this_name this_levelMin : NameValue) (name : string)
  : M (list NameValue) (NameValue * NameValue) :=
  constructor_head this_name (Some this_levelMin) (Some name).

End WithChalk.

End LoggerNames.

(** * Further scenarios *)

Module MoreScenario.

(** Listener 4 throws; the others return at once. *)
Definition failing_4
  : EventBus.EventListener -> list EventBus.JsValue -> EventBus.CallResult :=
  fun listener _ =>
    if Nat.eqb listener 4 then EventBus.Throws BootScenario.io_error
    else EventBus.ReturnsVoid.

(** Two headers arrive while the listener is open. *)
Definition two_headers : list ProtoListener.Resumption :=
  [ProtoListener.Resolved true false (Some (ProtoListener.mkHeader 3 2 0));
   ProtoListener.Resolved true false None].

(** What arrives after them, if anything is still read. *)
Definition afterwards : list ProtoListener.Resumption :=
  [ProtoListener.Resolved true false (Some (ProtoListener.mkHeader 9 8 1))].

(** Colours are off: [chalk] leaves its argument as it is. *)
Definition plain (s : string) : string := s.

(** No key is inherited. *)
Definition no_key (s : string) : bool := false.

End MoreScenario.

(** * The session loop beside the calls into the module *)
Module SessionInModule.
Import ProtoListener ListenerHistory.

(** One suspension of the loop in [await parseHeaders(...)]: the calls other
    code makes into the module meanwhile, the client's closed flag when the
    promise settles, and how the promise settles. *)
Record Suspension : Type := mkSuspension {
  meanwhile : list ModuleCall;
  closed_then : bool;
  settled : Completion (option Header)
}.

(** The resumptions the loop meets: the [open] it finds is the module's
    variable, as the calls made meanwhile leave it. *)
Fixpoint resumptions (env : Env) (st : State) (waits : list Suspension)
  : list Resumption :=
  match waits with
  | [] => []
  | w :: later =>
      let st' := fold_left (module_call env) (meanwhile w) st in
      match settled w with
      | Normal headerData =>
          Resolved (open st') (closed_then w) headerData
            :: resumptions env st' later
      | Throw e => Rejected e :: resumptions env st' later
      end
  end.

(** The pairs of flags the tests of the loop read, in order. *)
Definition flags_tested (steps : list Step) : list (bool * bool) :=
  flat_map (fun s => match s with Tested o c => [(o, c)] | _ => [] end) steps.

(** The listener's [open] and the client's [closed] each time an awaited
    parse resolves, up to the first rejection. *)
Fixpoint flags_after (env : Env) (st : State) (waits : list Suspension)
  : list (bool * bool) :=
  match waits with
  | [] => []
  | w :: later =>
      let st' := fold_left (module_call env) (meanwhile w) st in
      match settled w with
      | Normal _ => (open st', closed_then w) :: flags_after env st' later
      | Throw _ => []
      end
  end.

(** The two flags at the moments the loop can test them: when
    [handleConnection] is entered, and each time an awaited parse resolves. *)
Definition flags_then (env : Env) (st : State) (closed0 : bool)
  (waits : list Suspension) : list (bool * bool) :=
  (open st, closed0) :: flags_after env st waits.

(** The module after a successful [listen]. *)
Definition listening : State :=
  mkState [] (Some 1%nat) true
    [ListenTcp ListenerScenario.opts; LogInfo "0.0.0.0" 25565].

(** A header arrives; then, while the loop waits for the next one, the
    listener is closed, and the parse resolves with no header. *)
Definition closed_while_waiting : list Suspension :=
  [mkSuspension [] false (Normal (Some (mkHeader 3 2 0)));
   mkSuspension [Close] false (Normal None)].

End SessionInModule.

Module DeclaredIds.
Import EventBus BusHistory.

(** [on("line", f3); on("ready", f9); on("line", f4)] on a fresh bus. *)
Definition busy_history : list BusCall :=
  [On (IdString "line") 3%nat; On (IdString "ready") 9%nat;
   On (IdString "line") 4%nat].

End DeclaredIds.

Local Open Scope Z_scope.

(** * Properties of the [long] codec *)

Section LongFacts.
Import Long.

(** The bit-level byte at position [i] is the [i]-th base-256 digit. *)
Lemma byte_of_shift (u i : Z) :
  0 <= i -> Z.land (Z.shiftr u (8 * i)) 255 = (u / 2 ^ (8 * i)) mod 256.
Proof.
  intros Hi. rewrite Z.shiftr_div_pow2 by lia.
  change 255 with (Z.ones 8). now rewrite Z.land_ones by lia.
Qed.

Lemma land_shiftl8_byte (acc b : Z) :
  0 <= b < 256 -> Z.land (Z.shiftl acc 8) b = 0.
Proof.
  intros Hb. apply Z.bits_inj'. intros n Hn.
  rewrite Z.land_spec, Z.bits_0.
  destruct (Z.ltb_spec n 8).
  - now rewrite Z.shiftl_spec_low.
  - replace (Z.testbit b n) with false; [apply andb_false_r|].
    symmetry. destruct (Z.eq_dec b 0) as [->|]; [apply Z.bits_0|].
    apply Z.bits_above_log2; [lia|].
    enough (Z.log2 b < 8) by lia.
    apply Z.log2_lt_pow2; [lia|]. change (2 ^ 8) with 256. lia.
Qed.

Lemma lor_shift_byte (acc b : Z) :
  0 <= b < 256 -> Z.lor (Z.shiftl acc 8) b = acc * 256 + b.
Proof.
  intros Hb. pose proof (Z.add_lor_land (Z.shiftl acc 8) b) as H.
  rewrite land_shiftl8_byte in H by assumption.
  rewrite Z.shiftl_mul_pow2 in * by lia. change (2 ^ 8) with 256 in *. lia.
Qed.

(** Reading back the eight bytes written for [v] gives [v] modulo 2^64. *)
Lemma be_value_int64_bytes (v : Z) :
  be_value (int64_bytes_be v) = v mod 2 ^ 64.
Proof.
  unfold int64_bytes_be, be_value. cbn [map fold_left].
  set (u := v mod 2 ^ 64).
  assert (Hu : 0 <= u < 2 ^ 64) by (apply Z.mod_pos_bound; lia).
  rewrite !byte_of_shift by lia.
  rewrite !lor_shift_byte by (apply Z.mod_pos_bound; lia).
  change (8 * 7) with 56; change (8 * 6) with 48; change (8 * 5) with 40;
  change (8 * 4) with 32; change (8 * 3) with 24; change (8 * 2) with 16;
  change (8 * 1) with 8; change (8 * 0) with 0.
  change (2 ^ 64) with 18446744073709551616 in Hu.
  change (2 ^ 56) with 72057594037927936;
  change (2 ^ 48) with 281474976710656;
  change (2 ^ 40) with 1099511627776; change (2 ^ 32) with 4294967296;
  change (2 ^ 24) with 16777216; change (2 ^ 16) with 65536;
  change (2 ^ 8) with 256; change (2 ^ 0) with 1.
  Z.div_mod_to_equations; lia.
Qed.

Lemma ToBigInt64_in_range (v : Z) :
  - 2 ^ 63 <= v <= 2 ^ 63 - 1 -> ToBigInt64 (v mod 2 ^ 64) = v.
Proof.
  intros Hv. unfold ToBigInt64. rewrite Z.mod_mod by lia.
  change (2 ^ 63) with 9223372036854775808 in *.
  change (2 ^ 64) with 18446744073709551616.
  destruct (Z.geb_spec (v mod 18446744073709551616) 9223372036854775808);
    Z.div_mod_to_equations; lia.
Qed.

Lemma long_validate_range (v : Z) :
  long_validate v = true <-> - 2 ^ 63 <= v <= 2 ^ 63 - 1.
Proof.
  unfold long_validate, MIN_LONG, MAX_LONG.
  rewrite andb_true_iff, Z.geb_le, Z.leb_le.
  change (2 ^ 63) with 9223372036854775808. lia.
Qed.

Lemma int64_bytes_be_length (v : Z) : List.length (int64_bytes_be v) = 8%nat.
Proof. reflexivity. Qed.

(** On a [DataView] that does span an 8-byte [ArrayBuffer], writing a valid
    value and reading it back gives the value: the wire arithmetic of the
    codec is right. *)
Lemma DataView_int64_roundtrip (b : ArrayBuffer) (v : Z) :
  List.length b = 8%nat ->
  long_validate v = true ->
  (view <- DataView_new (ObjArrayBuffer b) ;;
   view' <- setBigInt64 view 0 v ;;
   getBigInt64 view' 0)%completion = Normal v.
Proof.
  intros Hb Hv. apply long_validate_range in Hv.
  cbn [DataView_new cbind]. unfold setBigInt64. cbn [dv_buffer].
  rewrite Hb. cbn [Nat.leb Nat.add cbind firstn app].
  rewrite skipn_all2 by lia. rewrite app_nil_r.
  unfold getBigInt64. cbn [dv_buffer]. rewrite int64_bytes_be_length.
  cbn [Nat.leb Nat.add skipn].
  rewrite firstn_all2 by (rewrite int64_bytes_be_length; lia).
  now rewrite be_value_int64_bytes, ToBigInt64_in_range.
Qed.

(** Decoding from a consumer pre-loaded with the eight wire bytes of a valid
    value yields the value and consumes the eight bytes. *)
Lemma long_decode_wire_bytes (v : Z) :
  long_validate v = true ->
  decode long (preloaded (int64_bytes_be v))
  = Ready v (mkConsumer (int64_bytes_be v) 8 true).
Proof.
  intros Hv. apply long_validate_range in Hv.
  cbn [decode long]. unfold long_decode, readWithView, preloaded.
  cbn [position buffered ended]. rewrite int64_bytes_be_length.
  cbn [Nat.leb Nat.add]. unfold getBigInt64. cbn [dv_buffer].
  rewrite int64_bytes_be_length. cbn [Nat.leb Nat.add skipn].
  rewrite firstn_all2 by (rewrite int64_bytes_be_length; lia).
  now rewrite be_value_int64_bytes, ToBigInt64_in_range.
Qed.

(** C1.  The round trip asks [encode(v)] to produce eight bytes.  The
    [encode] closure hands the [Uint8Array] itself, not its buffer, to the
    [DataView] constructor, so it throws a [TypeError] for every value, valid
    or not, and produces no bytes to decode. *)
Theorem long_encode_throws (v : Z) :
  encode long v
  = Throw (mkJsError TypeError
             "First argument to DataView constructor must be an ArrayBuffer").
Proof. reflexivity. Qed.

(** C6.  [validate] is true exactly on the range of a 64-bit signed
    integer, with the four boundary values as stated. *)
Theorem long_validate_exact :
  (forall v : Z, validate long v = true <-> - 2 ^ 63 <= v <= 2 ^ 63 - 1)
  /\ validate long 9223372036854775808 = false
  /\ validate long (-9223372036854775809) = false
  /\ validate long 9223372036854775807 = true
  /\ validate long (-9223372036854775808) = true.
Proof.
  split; [exact long_validate_range | repeat split].
Qed.

End LongFacts.

Section CodecScenarios.
Import Long.

Lemma long_validate_exact_witness :
  validate long 5 = true /\ - 2 ^ 63 <= -7 <= 2 ^ 63 - 1.
Proof.
  split.
  - apply (proj2 (proj1 long_validate_exact 5)). lia.
  - apply (proj1 (proj1 long_validate_exact (-7))). reflexivity.
Defined.

End CodecScenarios.

(** * Properties of [Promise.all] *)

Lemma promise_all_fulfils (ps : list Settled) (t : nat) :
  promise_all ps = Fulfils t ->
  forall p, In p ps -> exists d, p = Fulfils d /\ (d <= t)%nat.
Proof.
  revert t. induction ps as [|q ps IH]; intros t Hall p Hin; [easy|].
  cbn [promise_all] in Hall.
  destruct q as [d|d e|]; destruct (promise_all ps) as [t'|t' e'|] eqn:Hps;
    try discriminate; [| destruct (d <=? t')%nat; discriminate].
  injection Hall as <-. destruct Hin as [<-|Hin].
  - exists d. split; [reflexivity | apply Nat.le_max_l].
  - destruct (IH t' eq_refl p Hin) as (d' & -> & Hle).
    exists d'. split; [reflexivity|].
    etransitivity; [exact Hle | apply Nat.le_max_r].
Qed.

Lemma promise_all_rejects (ps : list Settled) (t : nat) (e : JsError) :
  In (Rejects t e) ps -> exists t' e', promise_all ps = Rejects t' e'.
Proof.
  induction ps as [|q ps IH]; intros Hin; [easy|].
  cbn [promise_all]. destruct Hin as [->|Hin].
  - destruct (promise_all ps) as [|t' e'|]; eauto.
    destruct (t <=? t')%nat; eauto.
  - destruct (IH Hin) as (t' & e' & ->).
    destruct q as [|d e0|]; eauto. destruct (d <=? t')%nat; eauto.
Qed.

(** * Properties of the event bus *)

Section EventBusFacts.
Import EventBus.

Lemma SFeqb_true_inv (x y : spec_float) :
  SFeqb x y = true ->
  match x, y with
  | S754_zero _, S754_zero _ => True
  | S754_infinity s, S754_infinity s' => s = s'
  | S754_finite s m e, S754_finite s' m' e' => s = s' /\ m = m' /\ e = e'
  | _, _ => False
  end.
Proof.
  unfold SFeqb, SFcompare.
  destruct x as [s|s| |s m e], y as [s'|s'| |s' m' e'];
    try (destruct s); try (destruct s'); try discriminate; try easy;
    change (PosDef.Pos.compare_cont Eq m m') with (Pos.compare m m');
    destruct (Z.compare e e') eqn:He; try discriminate;
    destruct (Pos.compare m m') eqn:Hm; cbn [CompOpp]; try discriminate;
    apply Z.compare_eq in He; apply Pos.compare_eq in Hm; subst; auto.
Qed.

Lemma SFeqb_refl (x : spec_float) : x <> S754_nan -> SFeqb x x = true.
Proof.
  unfold SFeqb, SFcompare. destruct x as [s|s| |s m e]; try easy.
  - now destruct s.
  - intros _. change (PosDef.Pos.compare_cont Eq m m) with (Pos.compare m m).
    rewrite Z.compare_refl, Pos.compare_refl. now destruct s.
Qed.

Lemma SFeqb_trans_sym (x y z : spec_float) :
  SFeqb x z = true -> SFeqb y z = true -> SFeqb x y = true.
Proof.
  intros Hxz Hyz. apply SFeqb_true_inv in Hxz, Hyz.
  destruct x as [s|s| |s m e], z as [s'|s'| |s' m' e']; try easy;
    destruct y as [t|t| |t n f]; try easy.
  - subst. apply SFeqb_refl. discriminate.
  - destruct Hxz as (-> & -> & ->), Hyz as (-> & -> & ->).
    apply SFeqb_refl. discriminate.
Qed.

Lemma same_value_zero_trans_sym (a b c : EventId) :
  same_value_zero a c = true -> same_value_zero b c = true ->
  same_value_zero a b = true.
Proof.
  destruct a as [s|x|j], c as [s'|x'|j'], b as [t|y|k];
    try (destruct x as [?|?| |? ? ?]); try (destruct x' as [?|?| |? ? ?]);
    try (destruct y as [?|?| |? ? ?]);
    cbn [same_value_zero strict_equals]; try discriminate;
    try (intros _ _; reflexivity); try apply SFeqb_trans_sym;
    try (intros _ H; discriminate H); try (intros H _; discriminate H).
  - intros ->%String.eqb_eq ->%String.eqb_eq. apply String.eqb_refl.
  - intros ->%Pos.eqb_eq ->%Pos.eqb_eq. apply Pos.eqb_refl.
Qed.

(** Away from [NaN], [===] and the map's key comparison agree. *)
Lemma strict_equals_same_value_zero (k id : EventId) :
  strict_equals id id = true -> strict_equals k id = same_value_zero k id.
Proof.
  intros Hid. destruct k as [s|x|j], id as [s'|y|j']; try reflexivity;
    destruct x as [?|?| |? ? ?]; try reflexivity;
    destruct y as [?|?| |? ? ?]; try reflexivity.
  cbv in Hid. discriminate Hid.
Qed.

(** A key that is not [===] to itself is [NaN]; nothing is [===] to it. *)
Lemma strict_equals_irrefl_none (k id : EventId) :
  strict_equals id id = false -> strict_equals k id = false.
Proof.
  destruct id as [s'|x'|j']; cbn.
  - now rewrite String.eqb_refl.
  - destruct x' as [s|s| |s m e].
    + now rewrite SFeqb_refl.
    + now rewrite SFeqb_refl.
    + intros _. destruct k as [?|x|?]; try reflexivity.
      now destruct x.
    + now rewrite SFeqb_refl.
  - now rewrite Pos.eqb_refl.
Qed.

Lemma map_set_get (m : ListenerMap) (id : EventId) (ls : list EventListener) :
  map_get m id = Some ls -> map_set m id ls = m.
Proof.
  induction m as [|[k w] m IH]; cbn; [discriminate|].
  destruct (same_value_zero k id).
  - now intros [= ->].
  - intros H. now rewrite IH.
Qed.

(** With the listener given, [off] changes nothing at all. *)
Lemma off_listener_id (m : ListenerMap) (id : EventId) (l : EventListener) :
  off m id (Some l) = m.
Proof.
  unfold off. destruct (map_get m id) as [ls|] eqn:Hget; [|reflexivity].
  now apply map_set_get.
Qed.

Lemma filter_none_matching (m : ListenerMap) (k id : EventId) :
  existsb (fun entry => same_value_zero (fst entry) k) m = false ->
  same_value_zero k id = true ->
  filter (fun entry => same_value_zero (fst entry) id) m = [].
Proof.
  intros Hnone Hk. induction m as [|[k' w] m IH]; [reflexivity|].
  cbn in *. apply orb_false_iff in Hnone as [Hk' Hnone].
  destruct (same_value_zero k' id) eqn:Hk'id.
  - rewrite (same_value_zero_trans_sym k' k id Hk'id Hk) in Hk'. discriminate.
  - now apply IH.
Qed.

(** In a map, the entries [send] selects for an id other than [NaN] are the
    one entry [get] finds. *)
Lemma found_is_registered (m : ListenerMap) (id : EventId) :
  map_ok m = true -> strict_equals id id = true ->
  flat_map (fun entry => snd entry)
    (filter (fun entry => strict_equals (fst entry) id) m)
  = registered m id.
Proof.
  intros Hok Hid.
  rewrite (filter_ext _ (fun entry => same_value_zero (fst entry) id))
    by (intros entry; now apply strict_equals_same_value_zero).
  unfold registered. induction m as [|[k w] m IH]; [reflexivity|].
  cbn in *. apply andb_true_iff in Hok as [Hfresh Hok].
  apply negb_true_iff in Hfresh.
  destruct (same_value_zero k id) eqn:Hk.
  - cbn. rewrite (filter_none_matching m k id Hfresh Hk). cbn. apply app_nil_r.
  - now apply IH.
Qed.

Lemma found_NaN_nothing (m : ListenerMap) (id : EventId) :
  strict_equals id id = false ->
  filter (fun entry => strict_equals (fst entry) id) m = [].
Proof.
  intros Hid. induction m as [|[k w] m IH]; [reflexivity|].
  cbn. now rewrite strict_equals_irrefl_none.
Qed.

Lemma same_value_zero_refl (a : EventId) : same_value_zero a a = true.
Proof.
  destruct a as [s|x|j]; cbn.
  - apply String.eqb_refl.
  - destruct x; try reflexivity; now apply SFeqb_refl.
  - apply Pos.eqb_refl.
Qed.

Lemma same_value_zero_sym (a b : EventId) :
  same_value_zero a b = same_value_zero b a.
Proof.
  destruct (same_value_zero a b) eqn:Hab, (same_value_zero b a) eqn:Hba;
    try reflexivity.
  - rewrite (same_value_zero_trans_sym b a b) in Hba;
      [discriminate | apply same_value_zero_refl | exact Hab].
  - rewrite (same_value_zero_trans_sym a b a) in Hab;
      [discriminate | apply same_value_zero_refl | exact Hba].
Qed.

Lemma same_value_zero_canonical (id k : EventId) :
  same_value_zero (canonical_key id) k = same_value_zero id k.
Proof.
  destruct id as [s|x|j]; try reflexivity.
  destruct x as [[|]|?| |? ? ?]; try reflexivity;
    destruct k as [?|y|?]; try reflexivity; now destruct y.
Qed.

Lemma map_set_fresh (m : ListenerMap) (id k : EventId) (v : list EventListener) :
  same_value_zero k id = false ->
  existsb (fun entry => same_value_zero (fst entry) k) m = false ->
  existsb (fun entry => same_value_zero (fst entry) k) (map_set m id v) = false.
Proof.
  intros Hk. induction m as [|[k' w] m IH]; cbn.
  - intros _. now rewrite same_value_zero_canonical, same_value_zero_sym, Hk.
  - intros [Hk' Hrest]%orb_false_iff.
    destruct (same_value_zero k' id); cbn; rewrite Hk'; [exact Hrest | now apply IH].
Qed.

Lemma map_delete_fresh (m : ListenerMap) (id k : EventId) :
  existsb (fun entry => same_value_zero (fst entry) k) m = false ->
  existsb (fun entry => same_value_zero (fst entry) k) (map_delete m id) = false.
Proof.
  induction m as [|[k' w] m IH]; cbn; [easy|].
  intros [Hk' Hrest]%orb_false_iff.
  destruct (same_value_zero k' id); cbn; [exact Hrest|].
  rewrite Hk'. now apply IH.
Qed.

Lemma map_ok_set (m : ListenerMap) (id : EventId) (v : list EventListener) :
  map_ok m = true -> map_ok (map_set m id v) = true.
Proof.
  induction m as [|[k w] m IH]; cbn; [reflexivity|].
  intros [Hfresh Hok]%andb_true_iff. apply negb_true_iff in Hfresh.
  destruct (same_value_zero k id) eqn:Hk; cbn.
  - now rewrite Hfresh, Hok.
  - rewrite map_set_fresh by assumption. now rewrite IH.
Qed.

Lemma map_ok_delete (m : ListenerMap) (id : EventId) :
  map_ok m = true -> map_ok (map_delete m id) = true.
Proof.
  induction m as [|[k w] m IH]; cbn; [reflexivity|].
  intros [Hfresh Hok]%andb_true_iff. apply negb_true_iff in Hfresh.
  destruct (same_value_zero k id); cbn; [exact Hok|].
  rewrite map_delete_fresh by assumption. now rewrite IH.
Qed.

(** Every map the bus can hold is a map: [new Map()] is, and [on] and [off]
    keep it one. *)
Lemma map_ok_empty : map_ok empty = true.
Proof. reflexivity. Qed.

Lemma map_ok_on (m : ListenerMap) (id : EventId) (l : EventListener) :
  map_ok m = true -> map_ok (on m id l) = true.
Proof. intros Hok. unfold on. now apply map_ok_set. Qed.

Lemma map_ok_off (m : ListenerMap) (id : EventId) (l : option EventListener) :
  map_ok m = true -> map_ok (off m id l) = true.
Proof.
  intros Hok. unfold off. destruct (map_get m id); [|exact Hok].
  destruct l; [now apply map_ok_set | now apply map_ok_delete].
Qed.

End EventBusFacts.

Section EventBusClaims.
Import EventBus.

(** On a map, [off(id, listener)] with the listener given leaves the whole
    map unchanged, and a [send(id, ...)] that follows still calls the
    listener when [id === id]. *)
Lemma off_with_listener_keeps_listener
  (call : EventListener -> list JsValue -> CallResult)
  (m : ListenerMap) (id : EventId) (l : EventListener) (args : list JsValue) :
  map_ok m = true ->
  In l (registered m id) ->
  off m id (Some l) = m
  /\ registered (off m id (Some l)) id = registered m id
  /\ (strict_equals id id = true ->
      In (l, args) (calls (send call (off m id (Some l)) id args))).
Proof.
  intros Hok Hin. rewrite off_listener_id. repeat split.
  intros Hid. unfold send. cbn [calls].
  rewrite found_is_registered by assumption.
  now apply (in_map (fun listener => (listener, args))).
Qed.

(** On a map, [send(id, ...args)] calls exactly the listeners registered
    under [id], each with [args], when [id === id], and nobody otherwise;
    when its promise is fulfilled every one of them has finished. *)
Lemma send_calls_registered
  (call : EventListener -> list JsValue -> CallResult)
  (m : ListenerMap) (id : EventId) (args : list JsValue) :
  map_ok m = true ->
  (strict_equals id id = true ->
     calls (send call m id args)
     = map (fun listener => (listener, args)) (registered m id)
     /\ forall t, settles (send call m id args) = Fulfils t ->
        forall l, In l (registered m id) ->
          call l args = ReturnsVoid
          \/ exists d, call l args = ReturnsPromise (Fulfils d) /\ (d <= t)%nat)
  /\ (strict_equals id id = false -> calls (send call m id args) = []).
Proof.
  intros Hok. split; intros Hid.
  - unfold send. cbn [calls settles].
    rewrite found_is_registered by assumption. split; [reflexivity|].
    intros t Hall l Hin.
    destruct (promise_all_fulfils _ t Hall (dispatch call l args)) as (d & Hd & Hle).
    { now apply (in_map (fun listener => dispatch call listener args)). }
    unfold dispatch in Hd. destruct (call l args) as [|p|e].
    + now left.
    + right. exists d. cbn in Hd. now subst.
    + discriminate.
  - unfold send. cbn [calls]. now rewrite found_NaN_nothing.
Qed.

End EventBusClaims.

(** * Properties of the orchestrator *)

Section OrchestratorFacts.
Import Orchestrator.

Variable env : Env.

Lemma recorded_recorded (w : World) (es es' : list Event) :
  recorded (recorded w es) es' = recorded w (es ++ es').
Proof. unfold recorded. cbn. now rewrite app_assoc. Qed.

(** The warn and error levels pass the filter of the master logger in both
    modes; the info level passes it in debug mode only. *)
Lemma enabled_WARN : enabled env WARN = true.
Proof. unfold enabled, levelMin. now destruct (isDebug env). Qed.

Lemma enabled_ERROR : enabled env ERROR = true.
Proof. unfold enabled, levelMin. now destruct (isDebug env). Qed.

Lemma enabled_INFO : enabled env INFO = isDebug env.
Proof. unfold enabled, levelMin. now destruct (isDebug env). Qed.

Lemma log_enabled (lvl : LoggerLevels) (msg : string) (err : option JsError)
  (w : World) :
  enabled env lvl = true ->
  log env lvl msg err w
  = (match write_throws env msg with None => Ret tt | Some e => Raise e end,
     recorded w [StdoutWrite lvl msg err]).
Proof.
  intros H. unfold log. rewrite H. unfold bind, emit, modify. cbn.
  now destruct (write_throws env msg).
Qed.

Lemma log_disabled (lvl : LoggerLevels) (msg : string) (err : option JsError)
  (w : World) :
  enabled env lvl = false -> log env lvl msg err w = (Ret tt, w).
Proof. intros H. unfold log. now rewrite H. Qed.

Lemma await_eq (p : Settled) (w : World) :
  await p w
  = (match p with
     | Fulfils _ => Ret tt
     | Rejects _ e => Raise e
     | Pending => Hangs
     end,
     later w (settle_time p)).
Proof. unfold await, bind, modify. cbn. now destruct p. Qed.

Lemma destroySyncUnsafe_eq (w : World) :
  destroySyncUnsafe env w
  = (match flushSync_throws env with None => Ret tt | Some e => Raise e end,
     recorded w [StdoutFlushSync; StdoutDestroy]).
Proof.
  unfold destroySyncUnsafe, try_finally, bind, emit, modify. cbn.
  destruct (flushSync_throws env); cbn; now rewrite recorded_recorded.
Qed.

Lemma process_exit_eq (code : option Z) (w : World) :
  process_exit code w
  = (Exit (match code with Some c => c | None => 0 end),
     recorded w [ProcessExit (match code with Some c => c | None => 0 end)]).
Proof. reflexivity. Qed.

(** The calls of an array literal are made back to back, at one instant,
    before anything is awaited. *)
Lemma call_each_three (ev : Server -> Event) (settles : Server -> Settled)
  (w : World) :
  call_each ev settles [rcon; proto; query] w
  = (Ret [settles rcon; settles proto; settles query],
     recorded w [ev rcon; ev proto; ev query]).
Proof.
  cbn [call_each]. unfold bind, emit, modify, ret.
  now rewrite !recorded_recorded.
Qed.

Lemma stop_try_clean (w : World) :
  stop_is_clean env ->
  stop_try env w
  = (Exit 0,
     recorded
       (later
          (recorded w [StdoutWrite WARN "Stopping server." None;
                       CallClose rcon; CallClose proto; CallClose query])
          (Nat.max (settle_time (close_settles env rcon))
             (Nat.max (settle_time (close_settles env proto))
                (settle_time (close_settles env query)))))
       (thanks_written env ++ [StdoutFlushSync; StdoutDestroy; ProcessExit 0])).
Proof.
  intros (Hw & Hc & Hi & Hf). unfold stop_try, bind.
  rewrite log_enabled by apply enabled_WARN. rewrite Hw.
  rewrite call_each_three, recorded_recorded. cbn [app].
  rewrite await_eq.
  destruct (Hc rcon) as (dr & ->), (Hc proto) as (dp & ->), (Hc query) as (dq & ->).
  cbn [promise_all settle_time]. rewrite Nat.max_0_r.
  unfold thanks_written.
  destruct (isDebug env) eqn:Hd.
  - rewrite log_enabled by (now rewrite enabled_INFO). rewrite (Hi eq_refl).
    rewrite destroySyncUnsafe_eq, Hf, process_exit_eq.
    now rewrite !recorded_recorded.
  - rewrite log_disabled by (now rewrite enabled_INFO).
    rewrite destroySyncUnsafe_eq, Hf, process_exit_eq.
    now rewrite !recorded_recorded.
Qed.

(** [stop_try] never returns normally: it exits with code 0, throws, or
    stays suspended on the close calls. *)
Lemma stop_try_ends (w w' : World) (r : Result unit) :
  stop_try env w = (r, w') ->
  r = Exit 0 \/ (exists e, r = Raise e) \/ r = Hangs.
Proof.
  unfold stop_try, bind.
  rewrite log_enabled by apply enabled_WARN.
  destruct (write_throws env "Stopping server.");
    [intros [= <- _]; eauto|].
  rewrite call_each_three, await_eq.
  destruct (promise_all _); [|intros [= <- _]; eauto ..].
  destruct (enabled env INFO) eqn:Hen;
    [rewrite log_enabled by assumption;
     destruct (write_throws env "Thanks for playing!");
       [intros [= <- _]; eauto|]
    |rewrite log_disabled by assumption].
  all: rewrite destroySyncUnsafe_eq; destruct (flushSync_throws env);
    [|rewrite process_exit_eq]; intros [= <- _]; eauto.
Qed.

(** What [stop] comes to, by how its [try] block ends. *)
Lemma stop_eq (w : World) :
  stop env w
  = match stop_try env w with
    | (Raise e, w1) => (Exit 1, recorded w1 [ConsoleError e; ProcessExit 1])
    | r => r
    end.
Proof.
  unfold stop, try_catch. destruct (stop_try env w) as [[[]|e|c|] w1]; try reflexivity.
  unfold stop_catch, bind, console_error, emit, modify. cbn.
  now rewrite recorded_recorded.
Qed.

(** [stop] never returns and never throws: it ends the process, with code
    0 or 1, unless a [close()] stays pending. *)
Lemma stop_ends (w w' : World) (r : Result unit) :
  stop env w = (r, w') -> r = Exit 0 \/ r = Exit 1 \/ r = Hangs.
Proof.
  rewrite stop_eq. destruct (stop_try env w) as [r0 w1] eqn:Htry.
  destruct (stop_try_ends _ _ _ Htry) as [->|[(e & ->)| ->]];
    intros [= <- _]; auto.
Qed.

(** Once its first notice is written, [stop] calls [close()] on all three
    listeners, whatever happens next, and ends the process; it leaves
    [isBooting] as it was. *)
Lemma stop_closes_all (w : World) :
  write_throws env "Stopping server." = None ->
  exists r rest w',
    stop env w = (r, w')
    /\ trace w' = trace w ++ [StdoutWrite WARN "Stopping server." None;
                              CallClose rcon; CallClose proto; CallClose query]
                          ++ rest
    /\ isBooting w' = isBooting w.
Proof.
  intros Hw. rewrite stop_eq. unfold stop_try, bind.
  rewrite log_enabled by apply enabled_WARN. rewrite Hw.
  rewrite call_each_three, recorded_recorded. cbn [app].
  rewrite await_eq.
  destruct (promise_all _) as [t|t e|].
  2,3: do 3 eexists; (split; [reflexivity|]); cbn; rewrite <- ?app_assoc;
       split; [|reflexivity]; cbn; try reflexivity;
       now rewrite app_nil_r.
  destruct (enabled env INFO) eqn:Hen;
    [rewrite log_enabled by assumption;
     destruct (write_throws env "Thanks for playing!")
    |rewrite log_disabled by assumption].
  2,3: rewrite destroySyncUnsafe_eq; destruct (flushSync_throws env);
       [|rewrite process_exit_eq].
  all: do 3 eexists; (split; [reflexivity|]); cbn;
       rewrite <- ?app_assoc; split; reflexivity.
Qed.

(** When a [close()] is rejected, nothing of the shutdown follows the three
    close calls: neither the notice nor the flush, only the console write
    and the exit with code 1. *)
Lemma stop_close_rejected (w : World) (t : nat) (e : JsError) :
  write_throws env "Stopping server." = None ->
  promise_all [close_settles env rcon; close_settles env proto;
               close_settles env query] = Rejects t e ->
  stop env w
  = (Exit 1,
     recorded
       (later
          (recorded w [StdoutWrite WARN "Stopping server." None;
                       CallClose rcon; CallClose proto; CallClose query])
          t)
       [ConsoleError e; ProcessExit 1]).
Proof.
  intros Hw Hall. rewrite stop_eq. unfold stop_try, bind.
  rewrite log_enabled by apply enabled_WARN. rewrite Hw.
  rewrite call_each_three, recorded_recorded. cbn [app].
  now rewrite await_eq, Hall.
Qed.

(** [stop] only adds to the history and leaves [isBooting] as it was. *)
Lemma stop_frame (w : World) :
  exists r es w',
    stop env w = (r, w')
    /\ trace w' = trace w ++ es
    /\ isBooting w' = isBooting w.
Proof.
  rewrite stop_eq. unfold stop_try, bind.
  rewrite log_enabled by apply enabled_WARN.
  destruct (write_throws env "Stopping server.").
  { do 3 eexists. split; [reflexivity|]. cbn. rewrite <- app_assoc.
    split; reflexivity. }
  rewrite call_each_three, recorded_recorded. cbn [app].
  rewrite await_eq.
  destruct (promise_all _) as [t|t e|].
  2,3: do 3 eexists; (split; [reflexivity|]); cbn; rewrite <- ?app_assoc;
       split; reflexivity.
  destruct (enabled env INFO) eqn:Hen;
    [rewrite log_enabled by assumption;
     destruct (write_throws env "Thanks for playing!")
    |rewrite log_disabled by assumption].
  2,3: rewrite destroySyncUnsafe_eq; destruct (flushSync_throws env);
       [|rewrite process_exit_eq].
  all: do 3 eexists; (split; [reflexivity|]); cbn;
       rewrite <- ?app_assoc; split; reflexivity.
Qed.

(** C2.  When a listener's [listen()] fails while the orchestrator is
    booting, [bootstrap] hands the error to the logger, and [isBooting] is
    still true at the end: the orchestrator was never running.  When the
    logger accepts the notices, [bootstrap] then runs [stop], which calls
    [close()] on all three listeners, the ones that had started included,
    and ends the process. *)
Theorem boot_failure_stops (w : World) (s : Server) (t : nat) (e : JsError) :
  isBooting w = true ->
  listen_settles env s = Rejects t e ->
  exists t' err r rest w',
    promise_all [listen_settles env rcon; listen_settles env proto;
                 listen_settles env query] = Rejects t' err
    /\ bootstrap env w = (r, w')
    /\ isBooting w' = true
    /\ trace w'
       = trace w
         ++ [CallListen rcon; CallListen proto; CallListen query;
             StdoutWrite ERROR "An error occurred while booting!" (Some err)]
         ++ rest
    /\ (boot_failure_logged env ->
        (r = Exit 0 \/ r = Exit 1 \/ r = Hangs)
        /\ exists rest',
             rest = [StdoutWrite WARN "The server will now stop." None;
                     StdoutWrite WARN "Stopping server." None;
                     CallClose rcon; CallClose proto; CallClose query]
                    ++ rest').
Proof.
  intros Hboot Hs.
  destruct (promise_all_rejects
              [listen_settles env rcon; listen_settles env proto;
               listen_settles env query] t e) as (t' & err & Hall).
  { rewrite <- Hs. destruct s; cbn; auto. }
  exists t', err.
  unfold bootstrap, try_catch, bootstrap_try. unfold bind at 1.
  rewrite call_each_three. unfold bind at 1. rewrite await_eq, Hall.
  unfold bootstrap_catch. unfold bind at 1. unfold gets.
  cbn [isBooting later recorded].
  rewrite Hboot. unfold bind at 1.
  rewrite log_enabled by apply enabled_ERROR.
  destruct (write_throws env "An error occurred while booting!") eqn:Herr.
  { eexists; exists []; eexists. split; [reflexivity|]. split; [reflexivity|].
    split; [exact Hboot|]. split.
    - cbn. now rewrite <- app_assoc.
    - intros (Hno & _). congruence. }
  unfold bind at 1. rewrite log_enabled by apply enabled_WARN.
  destruct (write_throws env "The server will now stop.") eqn:Hwarn.
  { eexists; exists [StdoutWrite WARN "The server will now stop." None]; eexists.
    split; [reflexivity|]. split; [reflexivity|].
    split; [exact Hboot|]. split.
    - cbn. now rewrite <- !app_assoc.
    - intros (_ & Hno & _). congruence. }
  match goal with |- context [stop env ?w0] =>
    destruct (stop_frame w0) as (r & es & w' & Hrun & Htr & Hb);
    pose proof (stop_closes_all w0) as Hall3;
    rewrite Hrun in *
  end.
  exists r, ([StdoutWrite WARN "The server will now stop." None] ++ es), w'.
  split; [reflexivity|]. split; [reflexivity|].
  split; [rewrite Hb; exact Hboot|]. split.
  - rewrite Htr. cbn. now rewrite <- !app_assoc.
  - intros (_ & _ & Hstop). split; [exact (stop_ends _ _ _ Hrun)|].
    destruct (Hall3 Hstop) as (r1 & rest' & w1 & [= <- <-] & Htr1 & _).
    exists rest'. rewrite Htr in Htr1. apply app_inv_head in Htr1.
    now rewrite Htr1.
Qed.

(** C3.  When no error occurs, [stop] calls [close()] on the three listeners
    back to back, waits for the three together (the time that passes is the
    longest of the three), flushes and destroys the logger's stream, and
    exits with code 0.  When its [try] block throws, at any step, all that
    follows is the write of the error to the console and the exit with
    code 1. *)
Theorem stop_shutdown (w : World) :
  (stop_is_clean env ->
   stop env w
   = (Exit 0,
      recorded
        (later
           (recorded w [StdoutWrite WARN "Stopping server." None;
                        CallClose rcon; CallClose proto; CallClose query])
           (Nat.max (settle_time (close_settles env rcon))
              (Nat.max (settle_time (close_settles env proto))
                 (settle_time (close_settles env query)))))
        (thanks_written env ++ [StdoutFlushSync; StdoutDestroy; ProcessExit 0])))
  /\ (forall (e : JsError) (w1 : World),
        stop_try env w = (Raise e, w1) ->
        stop env w = (Exit 1, recorded w1 [ConsoleError e; ProcessExit 1])).
Proof.
  split.
  - intros Hclean. rewrite stop_eq. now rewrite stop_try_clean.
  - intros e w1 Htry. rewrite stop_eq. now rewrite Htry.
Qed.

(** C7.  When an error reaches the [catch] block of [bootstrap] with
    [isBooting] cleared, the block writes the error through the logger and
    does nothing else: no [close()] is called, the process does not exit,
    no time passes, and [isBooting] stays cleared. *)
Theorem runtime_error_only_logged (err : JsError) (w : World) :
  isBooting w = false ->
  exists r w',
    bootstrap_catch env err w = (r, w')
    /\ (r = Ret tt \/ exists e, r = Raise e)
    /\ trace w'
       = trace w
         ++ [StdoutWrite ERROR
               "An error occurred in Spile! Please report this to the developers."
               (Some err)]
    /\ isBooting w' = false
    /\ now w' = now w.
Proof.
  intros Hrun. unfold bootstrap_catch, bind, gets. rewrite Hrun.
  rewrite log_enabled by apply enabled_ERROR.
  do 2 eexists. split; [reflexivity|].
  split; [destruct (write_throws env _); eauto|].
  cbn. auto.
Qed.

End OrchestratorFacts.

Section OrchestratorScenarios.
Import Orchestrator.

Lemma boot_failure_stops_witness :
  exists t' err r rest w',
    promise_all [listen_settles BootScenario.proto_fails rcon;
                 listen_settles BootScenario.proto_fails proto;
                 listen_settles BootScenario.proto_fails query] = Rejects t' err
    /\ bootstrap BootScenario.proto_fails initial = (r, w')
    /\ isBooting w' = true
    /\ trace w'
       = trace initial
         ++ [CallListen rcon; CallListen proto; CallListen query;
             StdoutWrite ERROR "An error occurred while booting!" (Some err)]
         ++ rest
    /\ (r = Exit 0 \/ r = Exit 1 \/ r = Hangs)
    /\ exists rest',
         rest = [StdoutWrite WARN "The server will now stop." None;
                 StdoutWrite WARN "Stopping server." None;
                 CallClose rcon; CallClose proto; CallClose query]
                ++ rest'.
Proof.
  destruct (boot_failure_stops BootScenario.proto_fails initial proto 1%nat
              BootScenario.bind_error eq_refl eq_refl)
    as (t' & err & r & rest & w' & Hall & Hrun & Hboot & Htr & Hstop).
  exists t', err, r, rest, w'.
  repeat (split; [assumption|]).
  apply Hstop. repeat split.
Defined.

(** The run of [bootstrap] when the game-protocol listener fails to bind. *)
Lemma bootstrap_proto_fails_run :
  bootstrap BootScenario.proto_fails initial
  = (Exit 0,
     mkWorld true 2
       [CallListen rcon; CallListen proto; CallListen query;
        StdoutWrite ERROR "An error occurred while booting!"
          (Some BootScenario.bind_error);
        StdoutWrite WARN "The server will now stop." None;
        StdoutWrite WARN "Stopping server." None;
        CallClose rcon; CallClose proto; CallClose query;
        StdoutFlushSync; StdoutDestroy; ProcessExit 0]).
Proof. reflexivity. Qed.

Lemma stop_shutdown_witness :
  stop BootScenario.healthy initial
  = (Exit 0,
     mkWorld true 1
       [StdoutWrite WARN "Stopping server." None;
        CallClose rcon; CallClose proto; CallClose query;
        StdoutFlushSync; StdoutDestroy; ProcessExit 0])
  /\ stop BootScenario.query_close_fails initial
     = (Exit 1,
        mkWorld true 3
          [StdoutWrite WARN "Stopping server." None;
           CallClose rcon; CallClose proto; CallClose query;
           ConsoleError BootScenario.io_error; ProcessExit 1]).
Proof.
  split.
  - apply (proj1 (stop_shutdown BootScenario.healthy initial)).
    repeat split. intros s. exists 1%nat. reflexivity.
  - apply (proj2 (stop_shutdown BootScenario.query_close_fails initial)
             BootScenario.io_error
             (mkWorld true 3
                [StdoutWrite WARN "Stopping server." None;
                 CallClose rcon; CallClose proto; CallClose query])).
    reflexivity.
Defined.

Lemma runtime_error_only_logged_witness :
  exists r w',
    bootstrap_catch BootScenario.ready_write_fails BootScenario.io_error
      BootScenario.running = (r, w')
    /\ (r = Ret tt \/ exists e, r = Raise e)
    /\ trace w'
       = trace BootScenario.running
         ++ [StdoutWrite ERROR
               "An error occurred in Spile! Please report this to the developers."
               (Some BootScenario.io_error)]
    /\ isBooting w' = false
    /\ now w' = now BootScenario.running.
Proof.
  apply (runtime_error_only_logged BootScenario.ready_write_fails
           BootScenario.io_error BootScenario.running).
  reflexivity.
Defined.

(** The [catch] block is reached with [isBooting] cleared when the write of
    the ready notice fails: the whole run logs the error and returns. *)
Lemma bootstrap_runtime_error_run :
  bootstrap BootScenario.ready_write_fails initial
  = (Ret tt,
     mkWorld false 2
       [CallListen rcon; CallListen proto; CallListen query;
        StdoutWrite INFO "We're ready to roll boss!" None;
        StdoutWrite ERROR
          "An error occurred in Spile! Please report this to the developers."
          (Some BootScenario.io_error)]).
Proof. reflexivity. Qed.

End OrchestratorScenarios.

(** * Properties of the protocol listener *)

Section ListenerFacts.
Import ProtoListener.

Variable env : Env.

Lemma listener_recorded_recorded (st : State) (es es' : list Event) :
  recorded (recorded st es) es' = recorded st (es ++ es').
Proof. unfold recorded. cbn. now rewrite app_assoc. Qed.

Lemma listener_recorded_nil (st : State) : recorded st [] = st.
Proof. destruct st. unfold recorded. cbn. now rewrite app_nil_r. Qed.

(** A connection that closes quietly lets the sweep go on. *)
Lemma close_sweep_step_quiet (conn : Conn) (rest : list Conn) (st : State) :
  closes_quietly env conn = true ->
  close_sweep env (conn :: rest) st
  = close_sweep env rest (recorded st [ConnClose conn]).
Proof.
  unfold closes_quietly. intros Hq. cbn [close_sweep].
  unfold bind at 1. unfold try_catch, conn_close, bind, emit, modify. cbn.
  destruct (conn_close_throws env conn) as [e|]; [|reflexivity].
  cbn. now rewrite Hq.
Qed.

(** A connection whose close throws another error ends the sweep. *)
Lemma close_sweep_step_rethrow (conn : Conn) (rest : list Conn) (st : State)
  (e : JsError) :
  conn_close_throws env conn = Some e ->
  instanceof e BadResource = false ->
  close_sweep env (conn :: rest) st = (Raise e, recorded st [ConnClose conn]).
Proof.
  intros He Hi. cbn [close_sweep].
  unfold bind at 1. unfold try_catch, conn_close, bind, emit, modify. cbn.
  rewrite He. cbn. now rewrite Hi.
Qed.

Lemma close_sweep_quiet (conns : list Conn) (st : State) :
  forallb (closes_quietly env) conns = true ->
  close_sweep env conns st = (Ret tt, recorded st (map ConnClose conns)).
Proof.
  revert st. induction conns as [|conn rest IH]; intros st Hq.
  - cbn. now rewrite listener_recorded_nil.
  - cbn [forallb] in Hq. apply andb_true_iff in Hq as [Hc Hrest].
    rewrite close_sweep_step_quiet by assumption.
    rewrite IH by assumption. now rewrite listener_recorded_recorded.
Qed.

Lemma close_sweep_rethrows (pre : list Conn) (conn : Conn) (post : list Conn)
  (e : JsError) (st : State) :
  forallb (closes_quietly env) pre = true ->
  conn_close_throws env conn = Some e ->
  instanceof e BadResource = false ->
  close_sweep env (pre ++ conn :: post) st
  = (Raise e, recorded st (map ConnClose (pre ++ [conn]))).
Proof.
  revert st. induction pre as [|c pre IH]; intros st Hq He Hi.
  - now apply close_sweep_step_rethrow.
  - cbn [forallb] in Hq. apply andb_true_iff in Hq as [Hc Hpre].
    cbn [app]. rewrite close_sweep_step_quiet by assumption.
    rewrite IH by assumption. now rewrite listener_recorded_recorded.
Qed.

Lemma close_eq (st st1 : State) :
  close_prelude env st = (Ret tt, st1) ->
  close env st = close_sweep env (connections st1) st1.
Proof. intros Hpre. unfold close, bind, gets. now rewrite Hpre. Qed.

(** C4.  Once [close()] has reached its loop over the connections: when
    every connection closes, or throws a bad-resource error because it was
    closed already, [close()] tries them all and returns normally; when a
    connection's close throws any other error, [close()] throws that error
    to its caller. *)
Theorem close_sweep_errors (st st1 : State) :
  close_prelude env st = (Ret tt, st1) ->
  (forallb (closes_quietly env) (connections st1) = true ->
   close env st = (Ret tt, recorded st1 (map ConnClose (connections st1))))
  /\ (forall (pre : list Conn) (conn : Conn) (post : list Conn) (e : JsError),
        connections st1 = pre ++ conn :: post ->
        forallb (closes_quietly env) pre = true ->
        conn_close_throws env conn = Some e ->
        instanceof e BadResource = false ->
        close env st
        = (Raise e, recorded st1 (map ConnClose (pre ++ [conn])))).
Proof.
  intros Hpre. rewrite (close_eq _ _ Hpre). split.
  - apply close_sweep_quiet.
  - intros pre conn post e -> Hq He Hi. now apply close_sweep_rethrows.
Qed.

(** Handing connections to [handleConnection] leaves the module's variables
    as they were: nothing is added to [connections]. *)
Lemma acceptConnections_state (incoming : list (Conn * list Resumption))
  (st : State) :
  exists runs, acceptConnections incoming st = (Ret runs, st).
Proof.
  induction incoming as [|[conn schedule] later IH]; [now exists []|].
  destruct IH as (runs & IH).
  exists (session_loop schedule (open st) false :: runs).
  cbn [acceptConnections]. unfold handleConnection, bind, gets, ret.
  now rewrite IH.
Qed.

End ListenerFacts.

Section SessionLoopFacts.
Import ProtoListener.

Lemma session_loop_head (schedule : list Resumption) (o c : bool) :
  nth_error (fst (session_loop schedule o c)) 0 = Some (Tested o c).
Proof.
  destruct schedule as [|[o' c' hd|e] later]; cbn [session_loop];
    destruct (o && negb c); try reflexivity.
  now destruct (session_loop later o' c').
Qed.

Lemma session_loop_unfold (o' c' : bool) (hd : option Header)
  (later : list Resumption) :
  session_loop (Resolved o' c' hd :: later) true false
  = (Tested true false :: ParseBegun :: ParseSettled hd
       :: match hd with None => Continued | Some h => Destructured h end
       :: fst (session_loop later o' c'),
     snd (session_loop later o' c')).
Proof.
  cbn [session_loop andb negb].
  destruct (session_loop later o' c'). now destruct hd.
Qed.

Lemma session_loop_stopped (schedule : list Resumption) (o c : bool) :
  o && negb c = false ->
  session_loop schedule o c = ([Tested o c], Returned).
Proof. intros H. destruct schedule; cbn [session_loop]; now rewrite H. Qed.

(** The loop on given flags: its first step is the test of those flags; a
    parse is begun only straight after a test that found the first flag true
    and the second false; and a test that finds otherwise is the last step. *)
Lemma session_loop_guarded
  (schedule : list Resumption) (o c : bool) :
  nth_error (fst (session_loop schedule o c)) 0 = Some (Tested o c)
  /\ (forall i, nth_error (fst (session_loop schedule o c)) i = Some ParseBegun ->
        exists j, i = S j
          /\ nth_error (fst (session_loop schedule o c)) j
             = Some (Tested true false))
  /\ (forall i o' c',
        nth_error (fst (session_loop schedule o c)) i = Some (Tested o' c') ->
        o' && negb c' = false ->
        nth_error (fst (session_loop schedule o c)) (S i) = None
        /\ snd (session_loop schedule o c) = Returned).
Proof.
  split; [apply session_loop_head|].
  revert o c. induction schedule as [|r later IH]; intros o c.
  - cbn [session_loop]. destruct (o && negb c) eqn:Hoc; cbn [fst snd].
    + apply andb_true_iff in Hoc as [-> ->%negb_true_iff]. split.
      * intros [|[|[|i]]]; cbn; try discriminate. intros _. now exists 0%nat.
      * intros [|[|[|i]]] o' c'; cbn; try discriminate.
        intros [= <- <-]. discriminate.
    + split.
      * intros [|[|i]]; cbn; discriminate.
      * intros [|[|i]] o' c'; cbn; try discriminate. auto.
  - destruct (o && negb c) eqn:Hoc.
    2:{ rewrite session_loop_stopped by assumption. cbn [fst snd]. split.
        - intros [|[|i]]; cbn; discriminate.
        - intros [|[|i]] o' c'; cbn; try discriminate. auto. }
    apply andb_true_iff in Hoc as [-> ->%negb_true_iff].
    destruct r as [o' c' hd|e].
    + rewrite session_loop_unfold. cbn [fst snd].
      destruct (IH o' c') as [IHparse IHtest]. split.
      * intros [|[|[|[|i]]]]; cbn [nth_error]; try discriminate.
        -- intros _. now exists 0%nat.
        -- destruct hd; discriminate.
        -- intros Hi. destruct (IHparse i Hi) as (j & -> & Hj).
           exists (S (S (S (S j)))). split; [reflexivity | exact Hj].
      * intros [|[|[|[|i]]]] o1 c1; cbn [nth_error]; try discriminate.
        -- intros [= <- <-]. discriminate.
        -- destruct hd; discriminate.
        -- apply IHtest.
    + cbn [session_loop andb negb fst snd]. split.
      * intros [|[|[|i]]]; cbn; try discriminate. intros _. now exists 0%nat.
      * intros [|[|[|i]]] o' c'; cbn; try discriminate.
        intros [= <- <-]. discriminate.
Qed.

End SessionLoopFacts.

Section ListenerScenarios.
Import ProtoListener.

Lemma close_sweep_errors_witness :
  close ListenerScenario.rough ListenerScenario.owning_3_4
  = (Ret tt,
     mkState [3; 4]%nat (Some 1%nat) false
       [ListenerClose; ConnClose 3%nat; ConnClose 4%nat])
  /\ close ListenerScenario.rough ListenerScenario.owning_3_to_6
     = (Raise ListenerScenario.reset_error,
        mkState [3; 4; 5; 6]%nat (Some 1%nat) false
          [ListenerClose; ConnClose 3%nat; ConnClose 4%nat; ConnClose 5%nat]).
Proof.
  split.
  - apply (proj1 (close_sweep_errors ListenerScenario.rough
                    ListenerScenario.owning_3_4
                    (mkState [3; 4]%nat (Some 1%nat) false [ListenerClose])
                    eq_refl)).
    reflexivity.
  - apply (proj2 (close_sweep_errors ListenerScenario.rough
                    ListenerScenario.owning_3_to_6
                    (mkState [3; 4; 5; 6]%nat (Some 1%nat) false [ListenerClose])
                    eq_refl)
             [3; 4]%nat 5%nat [6]%nat ListenerScenario.reset_error);
      reflexivity.
Defined.

(** C5.  A connection is accepted and its session is still open, suspended
    in [parseHeaders]; the set [connections] is empty all the same, and the
    [close()] that follows closes the listener and no connection: connection
    7 is never closed. *)
Theorem accepted_connection_not_closed :
  (listen ListenerScenario.calm ListenerScenario.opts ;;
   runs <- acceptConnections [(7%nat, [])] ;;
   conns <- gets connections ;;
   close ListenerScenario.calm ;;
   ret (runs, conns))%stmt initial
  = (Ret ([([Tested true false; ParseBegun], Awaiting)], []),
     mkState [] (Some 1%nat) false
       [ListenTcp ListenerScenario.opts; LogInfo "0.0.0.0" 25565; ListenerClose]).
Proof. reflexivity. Qed.

End ListenerScenarios.

Section SessionScenarios.
Import ProtoListener.

(** The run of the loop for a peer that sends one header and is silent while
    the listener is closed. *)
Lemma session_one_header_run :
  session_loop ListenerScenario.one_header_then_closed true false
  = ([Tested true false; ParseBegun; ParseSettled (Some (mkHeader 3 2 0));
      Destructured (mkHeader 3 2 0);
      Tested true false; ParseBegun; ParseSettled None; Continued;
      Tested false false],
     Returned).
Proof. reflexivity. Qed.

End SessionScenarios.

(** * Further properties of the event bus *)

Section EventBusMore.
Import EventBus BusHistory.

Lemma same_value_zero_common (k a b : EventId) :
  same_value_zero k a = true -> same_value_zero k b = true ->
  same_value_zero a b = true.
Proof.
  intros Ha Hb. apply (same_value_zero_trans_sym a b k);
    now rewrite same_value_zero_sym.
Qed.

Lemma map_get_set_same (m : ListenerMap) (id : EventId) (v : list EventListener) :
  map_get (map_set m id v) id = Some v.
Proof.
  induction m as [|[k w] m IH]; cbn.
  - now rewrite same_value_zero_canonical, same_value_zero_refl.
  - destruct (same_value_zero k id) eqn:Hk; cbn; now rewrite Hk.
Qed.

Lemma map_get_set_other (m : ListenerMap) (id id' : EventId)
  (v : list EventListener) :
  same_value_zero id id' = false ->
  map_get (map_set m id v) id' = map_get m id'.
Proof.
  intros Hne. induction m as [|[k w] m IH]; cbn.
  - now rewrite same_value_zero_canonical, Hne.
  - destruct (same_value_zero k id) eqn:Hk; cbn.
    + destruct (same_value_zero k id') eqn:Hk'; [|reflexivity].
      rewrite (same_value_zero_common k id id' Hk Hk') in Hne. discriminate.
    + now rewrite IH.
Qed.

Lemma map_get_fresh (m : ListenerMap) (k id : EventId) :
  existsb (fun entry => same_value_zero (fst entry) k) m = false ->
  same_value_zero k id = true ->
  map_get m id = None.
Proof.
  intros Hfresh Hk. induction m as [|[k' w] m IH]; [reflexivity|].
  cbn in *. apply orb_false_iff in Hfresh as [Hk' Hfresh].
  destruct (same_value_zero k' id) eqn:Hk'id; [|now apply IH].
  rewrite (same_value_zero_trans_sym k' k id Hk'id Hk) in Hk'. discriminate.
Qed.

Lemma map_get_delete_same (m : ListenerMap) (id : EventId) :
  map_ok m = true -> map_get (map_delete m id) id = None.
Proof.
  induction m as [|[k w] m IH]; cbn; [reflexivity|].
  intros [Hfresh Hok]%andb_true_iff. apply negb_true_iff in Hfresh.
  destruct (same_value_zero k id) eqn:Hk; cbn.
  - now apply (map_get_fresh m k id).
  - rewrite Hk. now apply IH.
Qed.

Lemma map_get_delete_other (m : ListenerMap) (id id' : EventId) :
  same_value_zero id id' = false ->
  map_get (map_delete m id) id' = map_get m id'.
Proof.
  intros Hne. induction m as [|[k w] m IH]; cbn; [reflexivity|].
  destruct (same_value_zero k id) eqn:Hk; cbn.
  - destruct (same_value_zero k id') eqn:Hk'; [|reflexivity].
    rewrite (same_value_zero_common k id id' Hk Hk') in Hne. discriminate.
  - now rewrite IH.
Qed.

Lemma registered_on_same (m : ListenerMap) (id : EventId) (l : EventListener) :
  registered (on m id l) id = registered m id ++ [l].
Proof. unfold registered, on. now rewrite map_get_set_same. Qed.

(** X1.  [on(id, listener)] puts the listener last in the list registered
    under [id] and leaves the list of every other id as it was. *)
Theorem on_registers_last (m : ListenerMap) (id : EventId) (l : EventListener) :
  registered (on m id l) id = registered m id ++ [l]
  /\ forall id', same_value_zero id id' = false ->
       registered (on m id l) id' = registered m id'.
Proof.
  split; [apply registered_on_same|].
  intros id' Hne. unfold registered, on. now rewrite map_get_set_other.
Qed.

(** X2.  After [on(id, listener)], for an id other than [NaN], [send(id,
    ...args)] calls the listeners it called before, in the same order, and
    then the new listener, with [args]. *)
Theorem on_then_send_calls_last
  (call : EventListener -> list JsValue -> CallResult)
  (m : ListenerMap) (id : EventId) (l : EventListener) (args : list JsValue) :
  map_ok m = true ->
  strict_equals id id = true ->
  calls (send call (on m id l) id args)
  = calls (send call m id args) ++ [(l, args)].
Proof.
  intros Hok Hid. unfold send. cbn [calls].
  rewrite !found_is_registered by (try apply map_ok_on; assumption).
  rewrite registered_on_same. now rewrite map_app.
Qed.

(** X3.  [off(id)] without a listener removes every listener of [id]: the
    list registered under [id] is empty afterwards, a [send(id, ...)] calls
    nobody, and the list of every other id is as it was. *)
Theorem off_without_listener_removes_all
  (call : EventListener -> list JsValue -> CallResult)
  (m : ListenerMap) (id : EventId) (args : list JsValue) :
  map_ok m = true ->
  registered (off m id None) id = []
  /\ calls (send call (off m id None) id args) = []
  /\ forall id', same_value_zero id id' = false ->
       registered (off m id None) id' = registered m id'.
Proof.
  intros Hok.
  assert (Hgone : registered (off m id None) id = []).
  { unfold registered, off. destruct (map_get m id) eqn:Hget.
    - now rewrite map_get_delete_same.
    - now rewrite Hget. }
  split; [exact Hgone|]. split.
  - unfold send. cbn [calls]. destruct (strict_equals id id) eqn:Hid.
    + rewrite found_is_registered by (try apply map_ok_off; assumption).
      now rewrite Hgone.
    + now rewrite found_NaN_nothing.
  - intros id' Hne. unfold registered, off.
    destruct (map_get m id); [|reflexivity]. now rewrite map_get_delete_other.
Qed.

Lemma arrays_nonempty_get (m : ListenerMap) (id : EventId)
  (ls : list EventListener) :
  arrays_nonempty m = true -> map_get m id = Some ls -> ls <> [].
Proof.
  induction m as [|[k w] m IH]; cbn; [discriminate|].
  intros [Hw Hrest]%andb_true_iff.
  destruct (same_value_zero k id); [|now apply IH].
  intros [= <-]. now destruct w.
Qed.

Lemma arrays_nonempty_set (m : ListenerMap) (id : EventId)
  (v : list EventListener) :
  v <> [] -> arrays_nonempty m = true -> arrays_nonempty (map_set m id v) = true.
Proof.
  intros Hv. induction m as [|[k w] m IH]; cbn.
  - intros _. now destruct v.
  - intros [Hw Hrest]%andb_true_iff.
    destruct (same_value_zero k id); cbn.
    + rewrite Hrest. now destruct v.
    + rewrite Hw. now apply IH.
Qed.

Lemma arrays_nonempty_delete (m : ListenerMap) (id : EventId) :
  arrays_nonempty m = true -> arrays_nonempty (map_delete m id) = true.
Proof.
  induction m as [|[k w] m IH]; cbn; [reflexivity|].
  intros [Hw Hrest]%andb_true_iff.
  destruct (same_value_zero k id); cbn; [exact Hrest|].
  rewrite Hw. now apply IH.
Qed.

Lemma bus_call_keeps (m : ListenerMap) (c : BusCall) :
  map_ok m = true /\ arrays_nonempty m = true ->
  map_ok (bus_call m c) = true /\ arrays_nonempty (bus_call m c) = true.
Proof.
  intros [Hok Hne]. destruct c as [id l|id l]; cbn [bus_call].
  - split; [now apply map_ok_on|]. unfold on.
    apply arrays_nonempty_set; [|exact Hne].
    now destruct (match map_get m id with Some ls => ls | None => [] end).
  - split; [now apply map_ok_off|]. unfold off.
    destruct (map_get m id) as [ls|] eqn:Hget; [|exact Hne].
    destruct l.
    + apply arrays_nonempty_set; [|exact Hne].
      now apply (arrays_nonempty_get m id).
    + now apply arrays_nonempty_delete.
Qed.

(** X4.  Whatever calls of [on] and [off] were made on a fresh bus, the map
    holds each id once (no two keys are the same to the map) and holds no id
    with an empty array of listeners. *)
Theorem bus_invariant (history : list BusCall) :
  map_ok (bus_after history) = true
  /\ arrays_nonempty (bus_after history) = true.
Proof.
  unfold bus_after.
  assert (H : map_ok empty = true /\ arrays_nonempty empty = true) by now split.
  revert H. generalize empty as m.
  induction history as [|c history IH]; intros m H; [exact H|].
  cbn [fold_left]. apply IH. now apply bus_call_keeps.
Qed.

Lemma promise_all_all_fulfil (ps : list Settled) :
  (forall p, In p ps -> exists d, p = Fulfils d) ->
  promise_all ps = Fulfils (fold_right Nat.max 0%nat (map settle_time ps)).
Proof.
  induction ps as [|q ps IH]; intros Hall; [reflexivity|].
  cbn [promise_all map fold_right].
  destruct (Hall q (or_introl eq_refl)) as (d & ->).
  rewrite IH by (intros p Hp; apply Hall; now right). reflexivity.
Qed.

(** X5.  When every listener registered under an id other than [NaN]
    returns normally, and every promise one returns is fulfilled, the
    promise of [send] is fulfilled at the moment the slowest of them has
    finished: the listeners are awaited together, not one after the other. *)
Theorem send_fulfils_with_the_slowest
  (call : EventListener -> list JsValue -> CallResult)
  (m : ListenerMap) (id : EventId) (args : list JsValue) :
  map_ok m = true ->
  strict_equals id id = true ->
  (forall l, In l (registered m id) ->
     call l args = ReturnsVoid
     \/ exists d, call l args = ReturnsPromise (Fulfils d)) ->
  settles (send call m id args)
  = Fulfils (finish_time call (registered m id) args).
Proof.
  intros Hok Hid Hall. unfold send, finish_time. cbn [settles].
  rewrite found_is_registered by assumption.
  rewrite promise_all_all_fulfil; [now rewrite map_map|].
  intros p (l & <- & Hl)%in_map_iff. unfold dispatch.
  destruct (Hall l Hl) as [->|(d & ->)]; cbn; eauto.
Qed.

(** X6.  When a listener registered under an id other than [NaN] throws, or
    returns a promise that is rejected, [send] has called every registered
    listener all the same, and the promise it returns is rejected. *)
Theorem send_rejects_when_a_listener_fails
  (call : EventListener -> list JsValue -> CallResult)
  (m : ListenerMap) (id : EventId) (args : list JsValue)
  (l : EventListener) (e : JsError) :
  map_ok m = true ->
  strict_equals id id = true ->
  In l (registered m id) ->
  (call l args = Throws e
   \/ exists t, call l args = ReturnsPromise (Rejects t e)) ->
  calls (send call m id args)
  = map (fun listener => (listener, args)) (registered m id)
  /\ exists t' e', settles (send call m id args) = Rejects t' e'.
Proof.
  intros Hok Hid Hin Hfail. unfold send. cbn [calls settles].
  rewrite found_is_registered by assumption. split; [reflexivity|].
  assert (Hrej : exists t, dispatch call l args = Rejects t e).
  { unfold dispatch. destruct Hfail as [->|(t & ->)]; cbn; eauto. }
  destruct Hrej as (t & Hrej).
  apply (promise_all_rejects _ t e). rewrite <- Hrej.
  now apply (in_map (fun listener => dispatch call listener args)).
Qed.

End EventBusMore.

(** * Further properties of the orchestrator *)

Section OrchestratorMore.
Import Orchestrator.

Variable env : Env.

Lemma promise_all_pending (ps : list Settled) :
  promise_all ps = Pending -> In Pending ps.
Proof.
  induction ps as [|q ps IH]; [discriminate|].
  cbn [promise_all].
  destruct q as [d|d e|]; [| |now left];
    destruct (promise_all ps) as [t'|t' e'|]; try discriminate;
    try (destruct (d <=? t')%nat; discriminate).
  intros _. right. now apply IH.
Qed.

(** The three promises [bootstrap] and [stop] wait for. *)
Lemma three_fulfil (settles : Server -> Settled) (t : nat) :
  promise_all [settles rcon; settles proto; settles query] = Fulfils t ->
  forall s, exists d, settles s = Fulfils d.
Proof.
  intros Hall s.
  destruct (promise_all_fulfils _ t Hall (settles s)) as (d & Hd & _).
  - destruct s; cbn; auto.
  - now exists d.
Qed.

Lemma three_fulfil_max (settles : Server -> Settled) :
  (forall s, exists d, settles s = Fulfils d) ->
  promise_all [settles rcon; settles proto; settles query]
  = Fulfils (Nat.max (settle_time (settles rcon))
               (Nat.max (settle_time (settles proto))
                  (settle_time (settles query)))).
Proof.
  intros H.
  destruct (H rcon) as (dr & ->), (H proto) as (dp & ->), (H query) as (dq & ->).
  cbn. now rewrite Nat.max_0_r.
Qed.

(** What the [try] block of [bootstrap] comes to, by how the three
    [listen()] promises settle together. *)
Lemma bootstrap_try_eq (w : World) :
  bootstrap_try env w
  = match promise_all [listen_settles env rcon; listen_settles env proto;
                       listen_settles env query] with
    | Fulfils t =>
        log env INFO "We're ready to roll boss!" None
          (mkWorld false (now w + t)
             (trace w ++ [CallListen rcon; CallListen proto; CallListen query]))
    | Rejects t e =>
        (Raise e,
         later (recorded w [CallListen rcon; CallListen proto; CallListen query]) t)
    | Pending =>
        (Hangs,
         later (recorded w [CallListen rcon; CallListen proto; CallListen query]) 0)
    end.
Proof.
  unfold bootstrap_try. unfold bind at 1. rewrite call_each_three.
  unfold bind at 1. rewrite await_eq.
  destruct (promise_all _); reflexivity.
Qed.

(** A method of the logger leaves [isBooting] as it finds it. *)
Lemma log_isBooting (lvl : LoggerLevels) (msg : string) (err : option JsError)
  (w : World) :
  isBooting (snd (log env lvl msg err w)) = isBooting w.
Proof.
  destruct (enabled env lvl) eqn:Hen.
  - now rewrite log_enabled.
  - now rewrite log_disabled.
Qed.

(** The [catch] block of [bootstrap] leaves [isBooting] as it finds it. *)
Lemma bootstrap_catch_isBooting (err : JsError) (w : World) :
  isBooting (snd (bootstrap_catch env err w)) = isBooting w.
Proof.
  unfold bootstrap_catch, bind, gets. destruct (isBooting w) eqn:Hb.
  - rewrite log_enabled by apply enabled_ERROR.
    destruct (write_throws env "An error occurred while booting!");
      [exact Hb|].
    rewrite log_enabled by apply enabled_WARN.
    destruct (write_throws env "The server will now stop."); [exact Hb|].
    match goal with |- context [stop env ?w0] =>
      destruct (stop_frame env w0) as (r & es & w' & Hrun & _ & Hkeep);
      rewrite Hrun
    end.
    cbn [snd]. rewrite Hkeep. exact Hb.
  - rewrite log_enabled by apply enabled_ERROR. exact Hb.
Qed.

(** X7.  Started while booting, [bootstrap] clears [isBooting] exactly when
    all three [listen()] promises are fulfilled: a rejected or a pending
    [listen()] leaves the orchestrator booting, whatever the logger and the
    close calls do. *)
Theorem bootstrap_running_iff_all_listen (w : World) :
  isBooting w = true ->
  (isBooting (snd (bootstrap env w)) = false
   <-> forall s, exists d, listen_settles env s = Fulfils d).
Proof.
  intros Hboot. unfold bootstrap, try_catch. rewrite bootstrap_try_eq.
  destruct (promise_all _) as [t|t e|] eqn:Hall.
  - split; [intros _; exact (three_fulfil _ t Hall)|]. intros _.
    match goal with |- context [log env INFO ?m None ?w0] =>
      pose proof (log_isBooting INFO m None w0) as Hkeep;
      destruct (log env INFO m None w0) as [r w1]
    end.
    cbn [snd isBooting] in Hkeep.
    destruct r; cbn [snd]; try exact Hkeep.
    now rewrite bootstrap_catch_isBooting.
  - split.
    + rewrite bootstrap_catch_isBooting. cbn. congruence.
    + intros Hful. rewrite three_fulfil_max in Hall by assumption. discriminate.
  - split.
    + cbn. congruence.
    + intros Hful. rewrite three_fulfil_max in Hall by assumption. discriminate.
Qed.

(** The run of a boot that goes well. *)
Lemma bootstrap_serves (w : World) :
  (forall s, exists d, listen_settles env s = Fulfils d) ->
  (isDebug env = true -> write_throws env "We're ready to roll boss!" = None) ->
  bootstrap env w
  = (Ret tt,
     mkWorld false
       (now w + Nat.max (settle_time (listen_settles env rcon))
                  (Nat.max (settle_time (listen_settles env proto))
                     (settle_time (listen_settles env query))))
       (trace w ++ [CallListen rcon; CallListen proto; CallListen query]
          ++ (if isDebug env
              then [StdoutWrite INFO "We're ready to roll boss!" None]
              else []))).
Proof.
  intros Hful Hready. unfold bootstrap, try_catch. rewrite bootstrap_try_eq.
  rewrite three_fulfil_max by assumption.
  destruct (isDebug env) eqn:Hd.
  - rewrite log_enabled by (now rewrite enabled_INFO). rewrite (Hready eq_refl).
    unfold recorded. cbn. now rewrite <- app_assoc.
  - rewrite log_disabled by (now rewrite enabled_INFO). now rewrite app_nil_r.
Qed.

(** X8.  When all three [listen()] promises are fulfilled (and, in debug
    mode, the ready notice is written), [bootstrap] returns normally with
    [isBooting] cleared; it has called [listen()] on the three servers back
    to back and waited for the three together, so the time that passed is
    the longest of the three; it has called no [close()] and has not exited. *)
Theorem bootstrap_success (w : World) :
  (forall s, exists d, listen_settles env s = Fulfils d) ->
  (isDebug env = true -> write_throws env "We're ready to roll boss!" = None) ->
  exists w',
    bootstrap env w = (Ret tt, w')
    /\ isBooting w' = false
    /\ now w' = (now w + Nat.max (settle_time (listen_settles env rcon))
                          (Nat.max (settle_time (listen_settles env proto))
                             (settle_time (listen_settles env query))))%nat
    /\ trace w'
       = trace w ++ [CallListen rcon; CallListen proto; CallListen query]
           ++ (if isDebug env
               then [StdoutWrite INFO "We're ready to roll boss!" None]
               else []).
Proof.
  intros Hful Hready. eexists. split; [now apply bootstrap_serves|].
  repeat split.
Qed.

(** X9.  [stop] never returns to its caller and never throws: it exits the
    process with code 0 or 1, or it stays suspended for ever, which happens
    only when some listener's [close()] promise never settles. *)
Theorem stop_never_returns (w : World) :
  exists r w',
    stop env w = (r, w')
    /\ (r = Exit 0 \/ r = Exit 1
        \/ (r = Hangs /\ exists s, close_settles env s = Pending)).
Proof.
  destruct (stop env w) as [r w'] eqn:Hstop. exists r, w'.
  split; [reflexivity|].
  destruct (stop_ends env _ _ _ Hstop) as [->|[->| ->]]; auto.
  right. right. split; [reflexivity|].
  revert Hstop. rewrite stop_eq. unfold stop_try, bind.
  rewrite log_enabled by apply enabled_WARN.
  destruct (write_throws env "Stopping server."); [discriminate|].
  rewrite call_each_three, await_eq.
  destruct (promise_all _) as [t|t e|] eqn:Hall.
  - destruct (enabled env INFO) eqn:Hen;
      [rewrite log_enabled by assumption;
       destruct (write_throws env "Thanks for playing!"); [discriminate|]
      |rewrite log_disabled by assumption];
      rewrite destroySyncUnsafe_eq; destruct (flushSync_throws env);
      discriminate.
  - discriminate.
  - intros _. apply promise_all_pending in Hall.
    destruct Hall as [H|[H|[H|[]]]]; eauto.
Qed.

(** X10.  [stop] exits with code 0 exactly when no error occurs in it: the
    logger's writes return, every [close()] promise is fulfilled and the
    flush returns.  In every other case the exit code is not 0. *)
Theorem stop_exit_0_iff_clean (w : World) :
  (exists w', stop env w = (Exit 0, w')) <-> stop_is_clean env.
Proof.
  split.
  - intros (w' & Hstop). revert Hstop. rewrite stop_eq. unfold stop_try, bind.
    rewrite log_enabled by apply enabled_WARN.
    destruct (write_throws env "Stopping server.") eqn:Hw; [discriminate|].
    rewrite call_each_three, await_eq.
    destruct (promise_all _) as [t|t e|] eqn:Hall; try discriminate.
    unfold stop_is_clean. rewrite <- enabled_INFO.
    destruct (enabled env INFO) eqn:Hen;
      [rewrite log_enabled by assumption;
       destruct (write_throws env "Thanks for playing!") eqn:Ht; [discriminate|]
      |rewrite log_disabled by assumption];
      rewrite destroySyncUnsafe_eq;
      destruct (flushSync_throws env) eqn:Hf; try discriminate;
      intros _; repeat split; auto; try discriminate;
      exact (three_fulfil _ t Hall).
  - intros Hclean. eexists. rewrite stop_eq. now rewrite stop_try_clean.
Qed.

(** X11.  With a logger whose writes return, [bootstrap] never throws to
    its caller: whatever the listeners do, it returns, ends the process, or
    stays suspended. *)
Theorem bootstrap_throws_only_by_logger (w : World) :
  (forall msg, write_throws env msg = None) ->
  forall e w', bootstrap env w <> (Raise e, w').
Proof.
  intros Hlog e w'. unfold bootstrap, try_catch. rewrite bootstrap_try_eq.
  destruct (promise_all _) as [t|t e0|].
  - unfold log. destruct (enabled env INFO); [|discriminate].
    unfold bind, emit, modify. cbn. rewrite Hlog. discriminate.
  - unfold bootstrap_catch, bind, gets.
    destruct (isBooting _).
    + rewrite log_enabled by apply enabled_ERROR. rewrite Hlog.
      rewrite log_enabled by apply enabled_WARN. rewrite Hlog.
      match goal with |- context [stop env ?w0] =>
        destruct (stop env w0) as [r w1] eqn:Hstop
      end.
      destruct (stop_ends env _ _ _ Hstop) as [->|[->| ->]]; discriminate.
    + rewrite log_enabled by apply enabled_ERROR. rewrite Hlog. discriminate.
  - discriminate.
Qed.

End OrchestratorMore.

(** * Further properties of the protocol listener *)

Section ListenerMore.
Import ProtoListener ListenerHistory.

Variable env : Env.

Lemma close_sweep_variables (conns : list Conn) (st : State) :
  same_variables st (snd (close_sweep env conns st)).
Proof.
  revert st. induction conns as [|conn rest IH]; intros st.
  - now repeat split.
  - destruct (closes_quietly env conn) eqn:Hq.
    + rewrite close_sweep_step_quiet by assumption.
      destruct (IH (recorded st [ConnClose conn])) as (Hc & Hl & Ho).
      now repeat split.
    + unfold closes_quietly in Hq.
      destruct (conn_close_throws env conn) as [e|] eqn:He; [|discriminate].
      rewrite (close_sweep_step_rethrow env conn rest st e He Hq).
      now repeat split.
Qed.

Lemma close_prelude_eq (st : State) :
  close_prelude env st
  = match listener st with
    | None =>
        (Ret tt, mkState (connections st) (listener st) false (trace st))
    | Some _ =>
        (match listener_close_throws env with
         | None => Ret tt
         | Some e => Raise e
         end,
         mkState (connections st) (listener st) false
           (trace st ++ [ListenerClose]))
    end.
Proof.
  unfold close_prelude, bind, set_open, listener_close, bind, gets, emit, modify.
  cbn. destruct (listener st); [|reflexivity].
  cbn. now destruct (listener_close_throws env).
Qed.

Lemma close_variables (st : State) :
  connections (snd (close env st)) = connections st
  /\ listener (snd (close env st)) = listener st
  /\ open (snd (close env st)) = false.
Proof.
  assert (H : exists st1, same_variables st1 (snd (close env st))
                          /\ connections st1 = connections st
                          /\ listener st1 = listener st
                          /\ open st1 = false).
  { unfold close. unfold bind at 1. rewrite close_prelude_eq.
    destruct (listener st) as [l|] eqn:Hl;
      [destruct (listener_close_throws env)|].
    - eexists. split; [split; [|split]; reflexivity|]. cbn. auto.
    - unfold bind, gets. eexists. split; [apply close_sweep_variables|].
      cbn. auto.
    - unfold bind, gets. eexists. split; [apply close_sweep_variables|].
      cbn. auto. }
  destruct H as (st1 & (Hc & Hl & Ho) & Hc1 & Hl1 & Ho1).
  rewrite Hc, Hl, Ho. auto.
Qed.

(** X12.  However [close()] ends, by returning or by throwing from the
    listener's or a connection's [close], it has set [open] to false, and
    it has left [listener] and the set [connections] as they were: nothing
    is ever removed from the set. *)
Theorem close_always_clears_open (st : State) :
  open (snd (close env st)) = false
  /\ connections (snd (close env st)) = connections st
  /\ listener (snd (close env st)) = listener st.
Proof.
  destruct (close_variables st) as (Hc & Hl & Ho). auto.
Qed.

Lemma listen_variables (opts : ServeOptions) (st : State) :
  connections (snd (listen env opts st)) = connections st
  /\ filter is_ConnClose (trace (snd (listen env opts st)))
     = filter is_ConnClose (trace st).
Proof.
  unfold listen. destruct (listenTcp env opts); [|now split].
  unfold bind, emit, set_listener, set_open, modify. cbn.
  split; [reflexivity|]. rewrite <- app_assoc, filter_app. cbn.
  now rewrite app_nil_r.
Qed.

(** With an empty set, [close()] is the closing of the listener. *)
Lemma close_empty_eq (st : State) :
  connections st = [] ->
  close env st
  = match listener st with
    | None => (Ret tt, mkState [] None false (trace st))
    | Some l =>
        (match listener_close_throws env with
         | None => Ret tt
         | Some e => Raise e
         end,
         mkState [] (Some l) false (trace st ++ [ListenerClose]))
    end.
Proof.
  intros Hc. unfold close. unfold bind at 1. rewrite close_prelude_eq, Hc.
  destruct (listener st) as [l|]; [|reflexivity].
  now destruct (listener_close_throws env).
Qed.

Lemma module_call_keeps_empty (st : State) (c : ModuleCall) :
  connections st = [] /\ filter is_ConnClose (trace st) = [] ->
  connections (module_call env st c) = []
  /\ filter is_ConnClose (trace (module_call env st c)) = [].
Proof.
  intros [Hc Ht]. destruct c as [opts|incoming|]; cbn [module_call].
  - destruct (listen_variables opts st) as (-> & ->). now split.
  - destruct (acceptConnections_state incoming st) as (runs & ->). now split.
  - rewrite close_empty_eq by assumption.
    destruct (listener st) as [l|]; cbn; [|now split].
    rewrite filter_app, Ht. now split.
Qed.

Lemma module_after_keeps_empty (history : list ModuleCall) :
  connections (module_after env history) = []
  /\ filter is_ConnClose (trace (module_after env history)) = [].
Proof.
  unfold module_after.
  assert (H : connections initial = []
              /\ filter is_ConnClose (trace initial) = []) by now split.
  revert H. generalize initial as st.
  induction history as [|c history IH]; intros st H; [exact H|].
  cbn [fold_left]. apply IH. now apply module_call_keeps_empty.
Qed.

(** X13.  Whatever calls of [listen] and [close] are made and whatever
    connections arrive, the set [connections] stays empty and no
    connection's [close()] is ever called: the module closes listeners
    only. *)
Theorem connections_stay_empty (history : list ModuleCall) :
  connections (module_after env history) = []
  /\ filter is_ConnClose (trace (module_after env history)) = [].
Proof. apply module_after_keeps_empty. Qed.

(** X14.  In every state the module can be in, [close()] makes at most one
    outside call, the listener's [close()], and throws exactly when that call
    throws; when no [listen()] has assigned a listener it touches no socket
    and returns normally.  In both cases it sets [open] to false. *)
Theorem close_in_any_reachable_state (history : list ModuleCall) :
  close env (module_after env history)
  = match listener (module_after env history) with
    | None =>
        (Ret tt, mkState [] None false (trace (module_after env history)))
    | Some l =>
        (match listener_close_throws env with
         | None => Ret tt
         | Some e => Raise e
         end,
         mkState [] (Some l) false
           (trace (module_after env history) ++ [ListenerClose]))
    end.
Proof.
  apply close_empty_eq. apply module_after_keeps_empty.
Qed.

End ListenerMore.

Section SessionMore.
Import ProtoListener ListenerHistory.

Lemma goes_on_inv (r : Resumption) :
  goes_on r = true -> exists hd, r = Resolved true false hd.
Proof.
  destruct r as [o c hd|e]; [|discriminate]. cbn.
  intros [-> ->%negb_true_iff]%andb_true_iff. now exists hd.
Qed.

Lemma parses_begun_turn (hd : option Header) (steps : list Step) :
  parses_begun
    (Tested true false :: ParseBegun :: ParseSettled hd
       :: match hd with None => Continued | Some h => Destructured h end
       :: steps)
  = S (parses_begun steps).
Proof. unfold parses_begun. cbn. now destruct hd. Qed.

(** What the loop does after a run of resumptions that let it go on. *)
Lemma session_loop_goes_on (turns rest : list Resumption) :
  forallb goes_on turns = true ->
  snd (session_loop (turns ++ rest) true false)
  = snd (session_loop rest true false)
  /\ parses_begun (fst (session_loop (turns ++ rest) true false))
     = (List.length turns
        + parses_begun (fst (session_loop rest true false)))%nat.
Proof.
  induction turns as [|r turns IH]; intros Hgo; [now split|].
  cbn [forallb] in Hgo. apply andb_true_iff in Hgo as [Hr Hturns].
  destruct (goes_on_inv r Hr) as (hd & ->).
  cbn [app]. rewrite session_loop_unfold. cbn [fst snd].
  destruct (IH Hturns) as (Hs & Hp).
  split; [exact Hs|]. rewrite parses_begun_turn, Hp. reflexivity.
Qed.

(** X15.  While every awaited parse resolves with [open] still true and
    [client.closed] still false, the loop never returns: it begins a parse
    per resumption and one more, on which it is suspended. *)
Theorem session_keeps_parsing (turns : list Resumption) :
  forallb goes_on turns = true ->
  snd (session_loop turns true false) = Awaiting
  /\ parses_begun (fst (session_loop turns true false))
     = S (List.length turns).
Proof.
  intros Hgo.
  destruct (session_loop_goes_on turns [] Hgo) as (Hs & Hp).
  rewrite app_nil_r in Hs, Hp. rewrite Hs, Hp. cbn.
  split; [reflexivity | apply Nat.add_1_r].
Qed.

(** X16.  A [parseHeaders] promise that is rejected is not caught: the loop
    ends there, [handleConnection] fails with the same error, and whatever
    would have arrived later is never parsed. *)
Theorem session_rejection_propagates
  (turns later : list Resumption) (e : JsError) :
  forallb goes_on turns = true ->
  snd (session_loop (turns ++ Rejected e :: later) true false) = Failed e
  /\ parses_begun (fst (session_loop (turns ++ Rejected e :: later) true false))
     = S (List.length turns).
Proof.
  intros Hgo.
  destruct (session_loop_goes_on turns (Rejected e :: later) Hgo) as (-> & ->).
  cbn. split; [reflexivity | apply Nat.add_1_r].
Qed.

(** X17.  When a parse resolves and by then [open] is false or
    [client.closed] is true, the loop returns at once, whether a header was
    read or not: it begins no further parse, and what the peer sends later
    is never read. *)
Theorem session_returns_when_flag_cleared
  (turns later : list Resumption) (o c : bool) (hd : option Header) :
  forallb goes_on turns = true ->
  o && negb c = false ->
  snd (session_loop (turns ++ Resolved o c hd :: later) true false) = Returned
  /\ parses_begun
       (fst (session_loop (turns ++ Resolved o c hd :: later) true false))
     = S (List.length turns).
Proof.
  intros Hgo Hoc.
  destruct (session_loop_goes_on turns (Resolved o c hd :: later) Hgo)
    as (-> & ->).
  rewrite session_loop_unfold. cbn [fst snd].
  rewrite session_loop_stopped by assumption. cbn [fst snd].
  rewrite parses_begun_turn. cbn. split; [reflexivity | apply Nat.add_1_r].
Qed.

End SessionMore.

(** * Further properties of the [long] codec *)

Section LongMore.
Import Long.

Lemma ToBigInt64_range (x : Z) : - 2 ^ 63 <= ToBigInt64 x <= 2 ^ 63 - 1.
Proof.
  unfold ToBigInt64.
  assert (H : 0 <= x mod 2 ^ 64 < 2 ^ 64) by (apply Z.mod_pos_bound; lia).
  change (2 ^ 63) with 9223372036854775808 in *.
  change (2 ^ 64) with 18446744073709551616 in *.
  destruct (Z.geb_spec (x mod 18446744073709551616) 9223372036854775808); lia.
Qed.

(** X18.  Whatever bytes the consumer hands over, a value that [decode]
    yields is one that [validate] accepts: [decode] never produces a value
    outside the 64-bit signed range. *)
Theorem long_decode_yields_valid (c rest : Consumer) (v : Z) :
  decode long c = Ready v rest -> validate long v = true.
Proof.
  cbn [decode validate long]. unfold long_decode.
  destruct (readWithView 8 c) as [[offset view] rest'| |e]; try discriminate.
  unfold getBigInt64.
  destruct (offset + 8 <=? List.length (dv_buffer view))%nat; [|discriminate].
  intros [= <- _]. apply long_validate_range. apply ToBigInt64_range.
Qed.

Lemma firstn_skipn_middle {A} (pre mid post : list A) :
  firstn (List.length mid) (skipn (List.length pre) (pre ++ mid ++ post)) = mid.
Proof.
  rewrite skipn_app, skipn_all, Nat.sub_diag. cbn [app skipn].
  rewrite firstn_app, firstn_all, Nat.sub_diag. cbn. apply app_nil_r.
Qed.

(** X19.  [decode] reads the value as eight bytes, most significant first,
    in two's complement, at the read position, wherever that is in the
    buffer: for a valid [v] whose eight wire bytes follow the bytes already
    read, it yields [v] and moves the read position past them. *)
Theorem long_decode_reads_big_endian (pre post : list Z) (v : Z) (fin : bool) :
  validate long v = true ->
  decode long (mkConsumer (pre ++ int64_bytes_be v ++ post) (List.length pre) fin)
  = Ready v (mkConsumer (pre ++ int64_bytes_be v ++ post)
               (List.length pre + 8) fin).
Proof.
  intros Hv. apply long_validate_range in Hv.
  cbn [decode long]. unfold long_decode, readWithView.
  cbn [position buffered ended].
  assert (Hlen : (List.length pre + 8
                  <=? List.length (pre ++ int64_bytes_be v ++ post))%nat = true).
  { apply Nat.leb_le. rewrite !length_app, int64_bytes_be_length. lia. }
  rewrite Hlen. unfold getBigInt64. cbn [dv_buffer]. rewrite Hlen.
  pose proof (firstn_skipn_middle pre (int64_bytes_be v) post) as Hmid.
  rewrite int64_bytes_be_length in Hmid. rewrite Hmid.
  now rewrite be_value_int64_bytes, ToBigInt64_in_range.
Qed.

End LongMore.

(** * Properties of the logger's constructor *)

Section LoggerMore.
Import Orchestrator LoggerNames.

Variable green gray toLowerCase : string -> string.
Variable inherited_key : string -> bool.

Lemma NameValue_eqb_refl (n : NameValue) : NameValue_eqb n n = true.
Proof.
  destruct n as [|s|l]; cbn;
    [reflexivity | apply String.eqb_refl | apply Nat.eqb_refl].
Qed.

Lemma includes_pushed (names : list NameValue) (n : NameValue) :
  includes (names ++ [n]) n = true.
Proof.
  unfold includes. rewrite existsb_app. cbn.
  now rewrite NameValue_eqb_refl, orb_true_r.
Qed.

Lemma sorted_out_name (name a b : NameValue) :
  fst (sorted_out green toLowerCase inherited_key name a)
  = fst (sorted_out green toLowerCase inherited_key name b).
Proof.
  unfold sorted_out.
  destruct (in_LoggerLevels inherited_key name); [reflexivity|].
  now destruct name.
Qed.

(** A name that is not registered yet is registered by the constructor. *)
Lemma parent_registered (registered : list NameValue) (name : NameValue)
  (levelMin : option NameValue) :
  truthy (processed_name green toLowerCase inherited_key name) = true ->
  includes registered (processed_name green toLowerCase inherited_key name)
  = false ->
  exists lvl,
    constructor_head green gray toLowerCase inherited_key
      name levelMin None registered
    = (Ret (processed_name green toLowerCase inherited_key name, lvl),
       registered ++ [processed_name green toLowerCase inherited_key name]).
Proof.
  unfold processed_name, constructor_head. intros Htruthy Hfresh.
  set (lm := if is_undefined name && is_undefined _ then _ else _).
  rewrite (sorted_out_name name Undefined lm) in *.
  destruct (sorted_out green toLowerCase inherited_key name lm) as [p lvl].
  cbn [fst] in *. exists lvl. rewrite Htruthy.
  unfold bind, gets, modify, ret. cbn beta iota. now rewrite Hfresh.
Qed.

(** A name that is registered already makes the constructor throw. *)
Lemma registered_name_throws (registered : list NameValue) (name : NameValue)
  (levelMin : option NameValue) (childName : option string) :
  truthy (processed_name green toLowerCase inherited_key name) = true ->
  includes registered (processed_name green toLowerCase inherited_key name)
  = true ->
  constructor_head green gray toLowerCase inherited_key
    name levelMin childName registered
  = (Raise (mkJsError TypeError "this.warn is not a function"), registered).
Proof.
  unfold processed_name, constructor_head. intros Htruthy Hthere.
  set (lm := if is_undefined name && is_undefined _ then _ else _).
  rewrite (sorted_out_name name Undefined lm) in *.
  destruct (sorted_out green toLowerCase inherited_key name lm) as [p lvl].
  cbn [fst] in *. rewrite Htruthy.
  unfold bind, gets, modify, ret. cbn beta iota. now rewrite Hthere.
Qed.

(** X20.  A second logger constructed with the name of a first one does not
    get the warning the constructor means to give: the first construction
    registers the name, and the second, finding it registered, calls
    [this.warn] before the methods exist and throws a [TypeError], leaving
    the registered names as they were. *)
Theorem second_logger_same_name_throws
  (registered : list NameValue) (name : NameValue)
  (levelMin levelMin' : option NameValue) :
  truthy (processed_name green toLowerCase inherited_key name) = true ->
  includes registered (processed_name green toLowerCase inherited_key name)
  = false ->
  exists lvl,
    constructor_head green gray toLowerCase inherited_key
      name levelMin None registered
    = (Ret (processed_name green toLowerCase inherited_key name, lvl),
       registered ++ [processed_name green toLowerCase inherited_key name])
    /\ constructor_head green gray toLowerCase inherited_key
         name levelMin' None
         (registered ++ [processed_name green toLowerCase inherited_key name])
       = (Raise (mkJsError TypeError "this.warn is not a function"),
          registered ++ [processed_name green toLowerCase inherited_key name]).
Proof.
  intros Htruthy Hfresh.
  destruct (parent_registered registered name levelMin Htruthy Hfresh)
    as (lvl & Hparent).
  exists lvl. split; [exact Hparent|].
  apply registered_name_throws; [exact Htruthy | apply includes_pushed].
Qed.

(** X21.  [child] does not work on a named logger whose name comes out of
    the constructor's colouring and lower-casing unchanged (as when colours
    are off): the child's constructor finds the parent's name registered and
    throws the same [TypeError]; no child logger is made. *)
Theorem child_of_named_logger_throws
  (registered : list NameValue) (name : NameValue)
  (levelMin : option NameValue) (childName : string) :
  truthy (processed_name green toLowerCase inherited_key name) = true ->
  includes registered (processed_name green toLowerCase inherited_key name)
  = false ->
  processed_name green toLowerCase inherited_key
    (processed_name green toLowerCase inherited_key name)
  = processed_name green toLowerCase inherited_key name ->
  exists this_name this_levelMin registered',
    constructor_head green gray toLowerCase inherited_key
      name levelMin None registered
    = (Ret (this_name, this_levelMin), registered')
    /\ child green gray toLowerCase inherited_key
         this_name this_levelMin childName registered'
       = (Raise (mkJsError TypeError "this.warn is not a function"),
          registered').
Proof.
  intros Htruthy Hfresh Hsame.
  destruct (parent_registered registered name levelMin Htruthy Hfresh)
    as (lvl & Hparent).
  do 3 eexists. split; [exact Hparent|].
  unfold child. apply registered_name_throws.
  - now rewrite Hsame.
  - rewrite Hsame. apply includes_pushed.
Qed.

End LoggerMore.

(** * The further properties at concrete inputs *)

Section MoreScenarios.
Import EventBus BusHistory.

Lemma on_registers_last_witness :
  registered (on BusScenario.busy_listeners BusScenario.line 8%nat)
    BusScenario.line = [3; 4; 8]%nat
  /\ registered (on BusScenario.busy_listeners BusScenario.line 8%nat)
       BusScenario.ready = [9]%nat.
Proof.
  destruct (on_registers_last BusScenario.busy_listeners BusScenario.line 8%nat)
    as (Hsame & Hother).
  split; [exact Hsame | exact (Hother BusScenario.ready eq_refl)].
Defined.

Lemma on_then_send_calls_last_witness :
  calls (send BusScenario.slow_3
           (on BusScenario.busy_listeners BusScenario.line 8%nat)
           BusScenario.line [VString "hello"])
  = calls (send BusScenario.slow_3 BusScenario.busy_listeners BusScenario.line
             [VString "hello"])
    ++ [(8%nat, [VString "hello"])].
Proof.
  exact (on_then_send_calls_last BusScenario.slow_3 BusScenario.busy_listeners
           BusScenario.line 8%nat [VString "hello"] eq_refl eq_refl).
Defined.

Lemma off_without_listener_removes_all_witness :
  registered (off BusScenario.busy_listeners BusScenario.line None)
    BusScenario.line = []
  /\ calls (send BusScenario.slow_3
              (off BusScenario.busy_listeners BusScenario.line None)
              BusScenario.line [VString "hello"]) = []
  /\ registered (off BusScenario.busy_listeners BusScenario.line None)
       BusScenario.ready = [9]%nat.
Proof.
  destruct (off_without_listener_removes_all BusScenario.slow_3
              BusScenario.busy_listeners BusScenario.line [VString "hello"]
              eq_refl)
    as (Hgone & Hsend & Hother).
  split; [exact Hgone|]. split; [exact Hsend|].
  exact (Hother BusScenario.ready eq_refl).
Defined.

Lemma send_fulfils_with_the_slowest_witness :
  settles (send BusScenario.slow_3 BusScenario.busy_listeners BusScenario.line
             [VString "hello"])
  = Fulfils (finish_time BusScenario.slow_3
               (registered BusScenario.busy_listeners BusScenario.line)
               [VString "hello"]).
Proof.
  apply (send_fulfils_with_the_slowest BusScenario.slow_3
           BusScenario.busy_listeners BusScenario.line [VString "hello"]
           eq_refl eq_refl).
  intros l [<-|[<-|[]]].
  - right. exists 5%nat. reflexivity.
  - left. reflexivity.
Defined.

Lemma send_rejects_when_a_listener_fails_witness :
  calls (send MoreScenario.failing_4 BusScenario.busy_listeners BusScenario.line
           [VString "hello"])
  = map (fun listener => (listener, [VString "hello"]))
      (registered BusScenario.busy_listeners BusScenario.line)
  /\ exists t' e',
       settles (send MoreScenario.failing_4 BusScenario.busy_listeners
                  BusScenario.line [VString "hello"]) = Rejects t' e'.
Proof.
  apply (send_rejects_when_a_listener_fails MoreScenario.failing_4
           BusScenario.busy_listeners BusScenario.line [VString "hello"]
           4%nat BootScenario.io_error eq_refl eq_refl).
  - right. left. reflexivity.
  - left. reflexivity.
Defined.

End MoreScenarios.

Section MoreBootScenarios.
Import Orchestrator.

Lemma bootstrap_running_iff_all_listen_witness :
  isBooting (snd (bootstrap BootScenario.healthy initial)) = false
  <-> forall s, exists d, listen_settles BootScenario.healthy s = Fulfils d.
Proof.
  apply (bootstrap_running_iff_all_listen BootScenario.healthy initial).
  reflexivity.
Defined.

Lemma bootstrap_success_witness :
  exists w',
    bootstrap BootScenario.healthy initial = (Ret tt, w')
    /\ isBooting w' = false
    /\ now w' = 2%nat
    /\ trace w' = [CallListen rcon; CallListen proto; CallListen query].
Proof.
  apply (bootstrap_success BootScenario.healthy initial).
  - intros s. exists 2%nat. reflexivity.
  - discriminate.
Defined.

Lemma stop_exit_0_iff_clean_witness :
  exists w', stop BootScenario.healthy initial = (Exit 0, w').
Proof.
  apply (proj2 (stop_exit_0_iff_clean BootScenario.healthy initial)).
  repeat split. intros s. exists 1%nat. reflexivity.
Defined.

Lemma bootstrap_throws_only_by_logger_witness :
  bootstrap BootScenario.proto_fails initial
  <> (Raise BootScenario.bind_error, initial).
Proof.
  apply (bootstrap_throws_only_by_logger BootScenario.proto_fails initial).
  reflexivity.
Defined.

End MoreBootScenarios.

Section MoreSessionScenarios.
Import ProtoListener ListenerHistory.

Lemma session_keeps_parsing_witness :
  snd (session_loop MoreScenario.two_headers true false) = Awaiting
  /\ parses_begun (fst (session_loop MoreScenario.two_headers true false))
     = 3%nat.
Proof.
  exact (session_keeps_parsing MoreScenario.two_headers eq_refl).
Defined.

Lemma session_rejection_propagates_witness :
  snd (session_loop
         (MoreScenario.two_headers
            ++ Rejected ListenerScenario.reset_error :: MoreScenario.afterwards)
         true false)
  = Failed ListenerScenario.reset_error
  /\ parses_begun
       (fst (session_loop
               (MoreScenario.two_headers
                  ++ Rejected ListenerScenario.reset_error
                       :: MoreScenario.afterwards)
               true false))
     = 3%nat.
Proof.
  exact (session_rejection_propagates MoreScenario.two_headers
           MoreScenario.afterwards ListenerScenario.reset_error eq_refl).
Defined.

Lemma session_returns_when_flag_cleared_witness :
  snd (session_loop
         (MoreScenario.two_headers
            ++ Resolved false false (Some (mkHeader 5 4 2))
                 :: MoreScenario.afterwards)
         true false)
  = Returned
  /\ parses_begun
       (fst (session_loop
               (MoreScenario.two_headers
                  ++ Resolved false false (Some (mkHeader 5 4 2))
                       :: MoreScenario.afterwards)
               true false))
     = 3%nat.
Proof.
  exact (session_returns_when_flag_cleared MoreScenario.two_headers
           MoreScenario.afterwards false false (Some (mkHeader 5 4 2))
           eq_refl eq_refl).
Defined.

End MoreSessionScenarios.

Section MoreCodecScenarios.
Import Long.

Lemma long_decode_yields_valid_witness : validate long (-2) = true.
Proof.
  apply (long_decode_yields_valid
           (preloaded [255; 255; 255; 255; 255; 255; 255; 254])
           (mkConsumer [255; 255; 255; 255; 255; 255; 255; 254] 8 true) (-2)).
  reflexivity.
Defined.

Lemma long_decode_reads_big_endian_witness :
  decode long (mkConsumer ([1; 2] ++ int64_bytes_be (-2) ++ [9]) 2 false)
  = Ready (-2) (mkConsumer ([1; 2] ++ int64_bytes_be (-2) ++ [9]) 10 false).
Proof.
  exact (long_decode_reads_big_endian [1; 2] [9] (-2) false eq_refl).
Defined.

End MoreCodecScenarios.

Section MoreLoggerScenarios.
Import Orchestrator LoggerNames.

Lemma second_logger_same_name_throws_witness :
  exists lvl,
    constructor_head MoreScenario.plain MoreScenario.plain MoreScenario.plain
      MoreScenario.no_key (Str "master") (Some (Level WARN)) None []
    = (Ret (Str "master", lvl), [Str "master"])
    /\ constructor_head MoreScenario.plain MoreScenario.plain MoreScenario.plain
         MoreScenario.no_key (Str "master") (Some (Level DEBUG)) None
         [Str "master"]
       = (Raise (mkJsError TypeError "this.warn is not a function"),
          [Str "master"]).
Proof.
  exact (second_logger_same_name_throws MoreScenario.plain MoreScenario.plain
           MoreScenario.plain MoreScenario.no_key [] (Str "master")
           (Some (Level WARN)) (Some (Level DEBUG)) eq_refl eq_refl).
Defined.

Lemma child_of_named_logger_throws_witness :
  exists this_name this_levelMin registered',
    constructor_head MoreScenario.plain MoreScenario.plain MoreScenario.plain
      MoreScenario.no_key (Str "master") (Some (Level WARN)) None []
    = (Ret (this_name, this_levelMin), registered')
    /\ child MoreScenario.plain MoreScenario.plain MoreScenario.plain
         MoreScenario.no_key this_name this_levelMin "net" registered'
       = (Raise (mkJsError TypeError "this.warn is not a function"),
          registered').
Proof.
  exact (child_of_named_logger_throws MoreScenario.plain MoreScenario.plain
           MoreScenario.plain MoreScenario.no_key [] (Str "master")
           (Some (Level WARN)) "net" eq_refl eq_refl eq_refl).
Defined.

End MoreLoggerScenarios.

(** * The session loop and the listener's flag *)

Section SessionAndListener.
Import ProtoListener ListenerHistory SessionInModule.

Lemma handleConnection_eq (conn : Conn) (closed0 : bool)
  (schedule : list Resumption) (st : State) :
  handleConnection conn closed0 schedule st
  = (Ret (session_loop schedule (open st) closed0), st).
Proof. reflexivity. Qed.

Lemma flags_tested_turn (hd : option Header) (steps : list Step) :
  flags_tested
    (Tested true false :: ParseBegun :: ParseSettled hd
       :: match hd with None => Continued | Some h => Destructured h end
       :: steps)
  = (true, false) :: flags_tested steps.
Proof. unfold flags_tested. cbn. now destruct hd. Qed.

(** The flags the loop tests are the listener's [open] and the client's
    [closed] as they are at each test, in order. *)
Lemma session_loop_flags (env : Env) (waits : list Suspension) :
  forall (st : State) (c : bool),
  exists n,
    flags_tested (fst (session_loop (resumptions env st waits) (open st) c))
    = firstn n ((open st, c) :: flags_after env st waits).
Proof.
  induction waits as [|w later IH]; intros st c.
  - exists 1%nat. cbn [resumptions session_loop flags_after firstn].
    now destruct (open st && negb c).
  - destruct (open st && negb c) eqn:Hoc.
    2:{ exists 1%nat. now rewrite session_loop_stopped. }
    apply andb_true_iff in Hoc as [Ho Hc]. apply negb_true_iff in Hc.
    subst c. rewrite Ho. cbn [resumptions flags_after].
    destruct (settled w) as [hd|e].
    + rewrite session_loop_unfold. cbn [fst]. rewrite flags_tested_turn.
      destruct (IH (fold_left (module_call env) (meanwhile w) st)
                   (closed_then w)) as (n & ->).
      now exists (S n).
    + now exists 1%nat.
Qed.

(** C8.  [handleConnection] reads the listener's [open] and the client's
    [closed] before every header parse.  Its first step is the test of the
    module's [open] and of the new client's flag; every pair of flags it
    tests is the module's [open], as the calls made into the module
    meanwhile have left it, and the client's [closed], at that moment; a
    parse is begun only straight after a test that found [open] true and
    [closed] false; and a test that finds [open] false or [closed] true is
    the last thing the loop does, so no parse is begun after it. *)
Theorem session_checks_before_every_parse
  (env : Env) (conn : Conn) (closed0 : bool) (waits : list Suspension)
  (st : State) :
  exists steps status,
    handleConnection conn closed0 (resumptions env st waits) st
    = (Ret (steps, status), st)
    /\ nth_error steps 0 = Some (Tested (open st) closed0)
    /\ (exists n, flags_tested steps = firstn n (flags_then env st closed0 waits))
    /\ (forall i, nth_error steps i = Some ParseBegun ->
          exists j, i = S j /\ nth_error steps j = Some (Tested true false))
    /\ (forall i o' c',
          nth_error steps i = Some (Tested o' c') ->
          o' && negb c' = false ->
          nth_error steps (S i) = None /\ status = Returned).
Proof.
  rewrite handleConnection_eq.
  destruct (session_loop_guarded (resumptions env st waits) (open st) closed0)
    as (Hhead & Hparse & Htest).
  destruct (session_loop_flags env waits st closed0) as (n & Hflags).
  destruct (session_loop (resumptions env st waits) (open st) closed0)
    as [steps status].
  exists steps, status. cbn [fst snd] in *.
  split; [reflexivity|]. split; [exact Hhead|].
  split; [now exists n|]. split; assumption.
Qed.

Lemma session_checks_before_every_parse_witness :
  exists steps status,
    handleConnection 7%nat false
      (resumptions ListenerScenario.calm listening closed_while_waiting)
      listening
    = (Ret (steps, status), listening)
    /\ nth_error steps 0 = Some (Tested true false)
    /\ flags_tested steps = [(true, false); (true, false); (false, false)]
    /\ (exists j, 5%nat = S j /\ nth_error steps j = Some (Tested true false))
    /\ nth_error steps 9 = None
    /\ status = Returned.
Proof.
  destruct (session_checks_before_every_parse ListenerScenario.calm 7%nat false
              closed_while_waiting listening)
    as (steps & status & Hrun & Hhead & _ & Hparse & Htest).
  exists steps, status.
  assert (Hsteps :
            (steps, status)
            = ([Tested true false; ParseBegun;
                ParseSettled (Some (mkHeader 3 2 0));
                Destructured (mkHeader 3 2 0);
                Tested true false; ParseBegun; ParseSettled None; Continued;
                Tested false false], Returned)).
  { cbv in Hrun. now injection Hrun as <- <-. }
  split; [exact Hrun|]. split; [exact Hhead|].
  injection Hsteps as Hs Hst.
  split; [now rewrite Hs|].
  split; [apply Hparse; now rewrite Hs|].
  apply (Htest 8%nat false false); [now rewrite Hs | reflexivity].
Defined.

End SessionAndListener.

(** * The event bus on the ids its declared overloads admit *)

Section DeclaredIdsFacts.
Import EventBus BusHistory.

(** A map the bus holds after a history of calls is a map. *)
Lemma bus_after_map_ok (history : list BusCall) :
  map_ok (bus_after history) = true.
Proof.
  unfold bus_after.
  assert (H : map_ok empty = true /\ arrays_nonempty empty = true) by now split.
  revert H. generalize empty as m.
  induction history as [|c history IH]; intros m H; [exact (proj1 H)|].
  cbn [fold_left]. apply IH. now apply bus_call_keeps.
Qed.

(** A string is [===] to itself. *)
Lemma string_id_strict (s : string) :
  strict_equals (IdString s) (IdString s) = true.
Proof. apply String.eqb_refl. Qed.

(** A rejected [Promise.all] has the reason of a member rejected at that
    time, and no member is rejected earlier. *)
Lemma promise_all_rejects_inv (ps : list Settled) (t : nat) (e : JsError) :
  promise_all ps = Rejects t e ->
  In (Rejects t e) ps
  /\ forall t' e', In (Rejects t' e') ps -> (t <= t')%nat.
Proof.
  revert t e. induction ps as [|q ps IH]; intros t e; [discriminate|].
  cbn [promise_all].
  destruct q as [d|d e0|]; destruct (promise_all ps) as [t1|t1 e1|] eqn:Hps;
    try discriminate.
  - intros [= <- <-]. destruct (IH t1 e1 eq_refl) as (Hin & Hmin).
    split; [now right|]. intros t' e' [Hq|Hq]; [discriminate | eauto].
  - intros [= <- <-]. split; [now left|].
    intros t' e' [[= <- <-]|Hq]; [apply Nat.le_refl|].
    exfalso. destruct (promise_all_rejects ps t' e' Hq) as (t2 & e2 & H2).
    rewrite H2 in Hps. discriminate.
  - destruct (IH t1 e1 eq_refl) as (Hin & Hmin).
    destruct (Nat.leb_spec d t1) as [Hle|Hlt]; intros [= <- <-].
    + split; [now left|].
      intros t' e' [[= <- <-]|Hq]; [apply Nat.le_refl|].
      etransitivity; [exact Hle | exact (Hmin t' e' Hq)].
    + split; [now right|].
      intros t' e' [[= <- <-]|Hq]; [now apply Nat.lt_le_incl | eauto].
  - intros [= <- <-]. split; [now left|].
    intros t' e' [[= <- <-]|Hq]; [apply Nat.le_refl|].
    exfalso. destruct (promise_all_rejects ps t' e' Hq) as (t2 & e2 & H2).
    rewrite H2 in Hps. discriminate.
  - intros [= <- <-]. destruct (IH t1 e1 eq_refl) as (Hin & Hmin).
    split; [now right|]. intros t' e' [Hq|Hq]; [discriminate | eauto].
Qed.

(** C9.  For every id the declared overloads admit (a string) and every
    listener registered under it, whatever calls of [on] and [off] came
    before, [off(id, listener)] with the listener given leaves the listener
    map, and so the list registered under the id, unchanged, and a
    [send(id, ...)] that follows still calls that listener, with the
    arguments sent. *)
Theorem off_with_listener_changes_nothing
  (call : EventListener -> list JsValue -> CallResult)
  (history : list BusCall) (s : string) (l : EventListener)
  (args : list JsValue) :
  In l (registered (bus_after history) (IdString s)) ->
  off (bus_after history) (IdString s) (Some l) = bus_after history
  /\ registered (off (bus_after history) (IdString s) (Some l)) (IdString s)
     = registered (bus_after history) (IdString s)
  /\ In (l, args)
       (calls (send call (off (bus_after history) (IdString s) (Some l))
                 (IdString s) args)).
Proof.
  intros Hin.
  destruct (off_with_listener_keeps_listener call (bus_after history)
              (IdString s) l args (bus_after_map_ok history) Hin)
    as (Hmap & Hlist & Hsend).
  split; [exact Hmap|]. split; [exact Hlist|].
  exact (Hsend (string_id_strict s)).
Qed.

Lemma off_with_listener_changes_nothing_witness :
  off (bus_after DeclaredIds.busy_history) (IdString "line") (Some 3%nat)
  = bus_after DeclaredIds.busy_history
  /\ registered
       (off (bus_after DeclaredIds.busy_history) (IdString "line") (Some 3%nat))
       (IdString "line")
     = registered (bus_after DeclaredIds.busy_history) (IdString "line")
  /\ In (3%nat, [VString "hello"])
       (calls (send BusScenario.slow_3
                 (off (bus_after DeclaredIds.busy_history) (IdString "line")
                    (Some 3%nat))
                 (IdString "line") [VString "hello"])).
Proof.
  apply (off_with_listener_changes_nothing BusScenario.slow_3
           DeclaredIds.busy_history "line" 3%nat [VString "hello"]).
  simpl. left. reflexivity.
Defined.

(** C10.  For every id the declared overloads admit (a string), whatever
    calls of [on] and [off] came before, [send(id, ...args)] calls exactly
    the listeners registered under that id, in order, each with [args], and
    no other listener.  The promise it returns is fulfilled only when every
    one of them has run to completion: each returned normally, and the
    promise it returned, if any, was awaited and fulfilled by then.  When
    the promise of [send] is rejected instead, the reason is that of a
    listener that threw or whose promise was rejected, the first to do so;
    when it stays pending, a listener's promise stays pending. *)
Theorem send_calls_exactly_registered
  (call : EventListener -> list JsValue -> CallResult)
  (history : list BusCall) (s : string) (args : list JsValue) :
  calls (send call (bus_after history) (IdString s) args)
  = map (fun listener => (listener, args))
      (registered (bus_after history) (IdString s))
  /\ (forall l args',
        In (l, args') (calls (send call (bus_after history) (IdString s) args)) ->
        In l (registered (bus_after history) (IdString s)) /\ args' = args)
  /\ (forall t,
        settles (send call (bus_after history) (IdString s) args) = Fulfils t ->
        forall l, In l (registered (bus_after history) (IdString s)) ->
          call l args = ReturnsVoid
          \/ exists d, call l args = ReturnsPromise (Fulfils d) /\ (d <= t)%nat)
  /\ (forall t e,
        settles (send call (bus_after history) (IdString s) args) = Rejects t e ->
        (exists l, In l (registered (bus_after history) (IdString s))
           /\ ((call l args = Throws e /\ t = 0%nat)
               \/ call l args = ReturnsPromise (Rejects t e)))
        /\ forall l t' e',
             In l (registered (bus_after history) (IdString s)) ->
             call l args = ReturnsPromise (Rejects t' e') -> (t <= t')%nat)
  /\ (settles (send call (bus_after history) (IdString s) args) = Pending ->
      exists l, In l (registered (bus_after history) (IdString s))
        /\ call l args = ReturnsPromise Pending).
Proof.
  pose proof (bus_after_map_ok history) as Hok.
  pose proof (string_id_strict s) as Hid.
  destruct (proj1 (send_calls_registered call (bus_after history) (IdString s)
                     args Hok) Hid) as (Hcalls & Hdone).
  split; [exact Hcalls|]. split.
  { intros l args' Hin. rewrite Hcalls in Hin.
    apply in_map_iff in Hin as (l' & [= <- <-] & Hl'). now split. }
  split; [exact Hdone|].
  unfold send. cbn [settles]. rewrite found_is_registered by assumption.
  split.
  - intros t e Hall.
    destruct (promise_all_rejects_inv _ t e Hall) as (Hin & Hmin). split.
    + apply in_map_iff in Hin as (l & Hl & Hreg). exists l.
      split; [exact Hreg|]. unfold dispatch in Hl.
      destruct (call l args) as [|p|e0]; try discriminate.
      * right. cbn in Hl. now subst p.
      * left. now injection Hl as <- <-.
    + intros l t' e' Hreg Hcall. apply (Hmin t' e').
      apply in_map_iff. exists l. split; [|exact Hreg].
      unfold dispatch. now rewrite Hcall.
  - intros Hall. apply promise_all_pending in Hall.
    apply in_map_iff in Hall as (l & Hl & Hreg). exists l.
    split; [exact Hreg|]. unfold dispatch in Hl.
    destruct (call l args) as [|p|e0]; try discriminate.
    cbn in Hl. now subst p.
Qed.

Lemma send_calls_exactly_registered_witness :
  calls (send BusScenario.slow_3 (bus_after DeclaredIds.busy_history)
           (IdString "line") [VString "hello"])
  = [(3%nat, [VString "hello"]); (4%nat, [VString "hello"])]
  /\ (BusScenario.slow_3 3%nat [VString "hello"] = ReturnsVoid
      \/ exists d,
           BusScenario.slow_3 3%nat [VString "hello"] = ReturnsPromise (Fulfils d)
           /\ (d <= 5)%nat)
  /\ exists l,
       In l (registered (bus_after DeclaredIds.busy_history) (IdString "line"))
       /\ ((MoreScenario.failing_4 l [VString "hello"]
            = Throws BootScenario.io_error /\ 0%nat = 0%nat)
           \/ MoreScenario.failing_4 l [VString "hello"]
              = ReturnsPromise (Rejects 0 BootScenario.io_error)).
Proof.
  destruct (send_calls_exactly_registered BusScenario.slow_3
              DeclaredIds.busy_history "line" [VString "hello"])
    as (Hcalls & _ & Hdone & _).
  destruct (send_calls_exactly_registered MoreScenario.failing_4
              DeclaredIds.busy_history "line" [VString "hello"])
    as (_ & _ & _ & Hrejected & _).
  split; [exact Hcalls|]. split.
  - exact (Hdone 5%nat eq_refl 3%nat (or_introl eq_refl)).
  - exact (proj1 (Hrejected 0%nat BootScenario.io_error eq_refl)).
Defined.

End DeclaredIdsFacts.
